(** * CineForge video composer: timeline, frame renderer and capture driver

    A shallow embedding of [src/components/VideoComposer.tsx],
    [src/components/AssetDropzone.tsx] and the page that hosts them.

    Conventions of the embedding.
    - A JavaScript [number] that is always an integer in the source (scene
      bounds, durations, canvas sizes) is a [Z]; a [number] that can be
      fractional (timestamps of [performance.now], progress, alpha,
      coordinates) is a [Q].  Comparisons, [Math.min] and [Math.max] are
      exact on both, as they are on doubles; products and quotients are the
      exact ones.  Timestamps are finite numbers, as the clock gives them.
    - The 2D canvas context is an explicit state record [Ctx].  Every
      painting call appends a display-list entry that records the context
      state it was painted with (paint, global alpha, filter, font).
    - A JavaScript exception is the [Throw] result of the state and error
      monad [Draw]; the context keeps the state it had when the exception
      was raised.
    - [fitCover], [kenBurnsPath] and [lerp] are imported from
      ["@/lib/kenburns"], which is not among the sources: the renderer takes
      them as the parameter [K]. *)

From Stdlib Require Import ZArith QArith Qminmax Qround List String Bool.
From Stdlib Require Import DecimalString Sorted Lia Lqa.
Import ListNotations.

Open Scope Z_scope.

(** * Part I: the embedding *)

(** ** Scene timings (VideoComposer.tsx, lines 30-40) *)

Definition introMs : Z := 1500.
Definition perImageMs : Z := 3200.
Definition priceMs : Z := 1800.
Definition outroMs : Z := 800.

(** The body of the [useMemo] callback: [bitmapsLength] is [bitmaps.length]
    and [assetsLength] is [assets.length] as the callback reads them. *)
Definition totalDurationMs (bitmapsLength assetsLength : nat) : Z :=
  let n := Nat.max bitmapsLength assetsLength in
  if Nat.eqb n 0 then introMs
  else introMs + Z.of_nat n * perImageMs + priceMs + outroMs.

(** [useMemo(..., [bitmaps.length])]: the cell keeps the dependency it was
    computed for, the asset count the callback read then, and the value; a
    render recomputes only when [bitmaps.length] differs from the stored
    dependency. *)
Record MemoCell := mkMemo { memoDep : nat; memoAssets : nat; memoValue : Z }.

Definition useMemoTotal (cell : option MemoCell)
  (bitmapsLength assetsLength : nat) : MemoCell :=
  let fresh := mkMemo bitmapsLength assetsLength
                 (totalDurationMs bitmapsLength assetsLength) in
  match cell with
  | None => fresh
  | Some c => if Nat.eqb (memoDep c) bitmapsLength then c else fresh
  end.

(** ** Scenes (drawFrame, lines 72-83) *)

Inductive SceneKind := Intro | Image | Price | Outro.

Record Scene := mkScene {
  kind : SceneKind;
  idx : option nat;
  start : Z;
  end_ : Z
}.

(** The [for (let i = 0; i < bitmaps.length; i++)] loop; [remaining] is
    [bitmaps.length - i]. *)
Fixpoint pushImageScenes (remaining i : nat) (cursor : Z) (scenes : list Scene)
  : list Scene * Z :=
  match remaining with
  | O => (scenes, cursor)
  | S r =>
      pushImageScenes r (S i) (cursor + perImageMs)
        (scenes ++ [mkScene Image (Some i) cursor (cursor + perImageMs)])
  end.

Definition buildScenes (bitmapsLength : nat) : list Scene :=
  let scenes := [] in
  let cursor := 0 in
  let scenes := scenes ++ [mkScene Intro None cursor (cursor + introMs)] in
  let cursor := cursor + introMs in
  let '(scenes, cursor) := pushImageScenes bitmapsLength 0 cursor scenes in
  let scenes := scenes ++ [mkScene Price None cursor (cursor + priceMs)] in
  let cursor := cursor + priceMs in
  scenes ++ [mkScene Outro None cursor (cursor + outroMs)].

(** ** Scene lookup (drawFrame, lines 84-87) *)

Definition Qlt_bool (x y : Q) : bool := negb (Qle_bool y x).

(** [time >= s.start && time < s.end] *)
Definition inScene (time : Q) (s : Scene) : bool :=
  Qle_bool (inject_Z (start s)) time && Qlt_bool time (inject_Z (end_ s)).

(** [Math.min(tMs, totalDurationMs - 1)] *)
Definition clampTime (tMs : Q) (total : Z) : Q :=
  Qmin tMs (inject_Z (total - 1)).

(** [scenes.find(s => ...)]: [None] is JavaScript's [undefined]. *)
Definition findScene (time : Q) (scenes : list Scene) : option Scene :=
  find (inScene time) scenes.

(** ** Component inputs and state (lines 6-28, 42-58) *)

Inductive Ratio := R16_9 | R9_16 | R1_1.
Inductive Style := cinematic | modern | minimal.

Record File := mkFile { fileName : string; fileType : string }.

(** A decoded image: its intrinsic size and the identity of its pixels. *)
Record ImageBitmap := mkBitmap {
  bmpWidth : Z;
  bmpHeight : Z;
  bmpPixels : nat
}.

Record Props := mkProps {
  assets : list File;
  audioFile : option File;
  productName : string;
  tagline : string;
  features : list string;
  cta : string;
  price : string;
  ratio : Ratio;
  style : Style
}.

(** What the closures of one render of the component see: the props, the
    [bitmaps] state, and the memoised duration.  The duration is stored as
    the asset count its memo cell was computed with ([bitmaps.length] is the
    cell's dependency, so the cell is always current in it). *)
Record Composer := mkComposer {
  props : Props;
  bitmaps : list ImageBitmap;
  memoAssetsLength : nat
}.

Definition totalOf (cmp : Composer) : Z :=
  totalDurationMs (List.length (bitmaps cmp)) (memoAssetsLength cmp).

(** Layout target size (lines 24-28). *)
Definition layoutSize (r : Ratio) : Z * Z :=
  match r with
  | R16_9 => (1280, 720)
  | R9_16 => (1080, 1920)
  | R1_1 => (1080, 1080)
  end.

(** The bitmap-loading effect (lines 43-58): [decode] is the host's
    [createImageBitmap] on the file's bytes, [None] when it rejects. *)
Fixpoint loadBitmapsLoop (decode : File -> option ImageBitmap)
  (fs : list File) (imgs : list ImageBitmap) : list ImageBitmap :=
  match fs with
  | [] => imgs
  | f :: rest =>
      if negb (String.prefix "image/" (fileType f))
      then loadBitmapsLoop decode rest imgs
      else match decode f with
           | Some bmp => loadBitmapsLoop decode rest (imgs ++ [bmp])
           | None => loadBitmapsLoop decode rest imgs
           end
  end.

Definition loadBitmaps (decode : File -> option ImageBitmap)
  (fs : list File) : list ImageBitmap :=
  loadBitmapsLoop decode fs [].

(** ** The canvas context *)

Definition ColorStop : Type := (Q * string)%type.

(** What [fillStyle] can hold in this program. *)
Inductive Paint :=
| CssColor (css : string)
| RgbaWhite (alpha : Q)
| LinearGradient (x0 y0 x1 y1 : Q) (stops : list ColorStop)
| RadialGradient (x0 y0 r0 x1 y1 r1 : Q) (stops : list ColorStop).

(** [g.addColorStop(offset, color)] on a gradient that is still local. *)
Definition addColorStop (g : Paint) (offset : Q) (color : string) : Paint :=
  match g with
  | LinearGradient x0 y0 x1 y1 stops =>
      LinearGradient x0 y0 x1 y1 (stops ++ [(offset, color)])
  | RadialGradient x0 y0 r0 x1 y1 r1 stops =>
      RadialGradient x0 y0 r0 x1 y1 r1 (stops ++ [(offset, color)])
  | other => other
  end.

(** [`${weight} ${px}px ui-sans-serif, system-ui`] *)
Record Font := mkFont { fontWeight : Z; fontPx : Z; fontFamily : string }.

Inductive PathCmd :=
| MoveTo (x y : Q)
| ArcTo (x1 y1 x2 y2 r : Q)
| ClosePath.

(** One entry of the display list: what was painted, and the paint, global
    alpha and filter it was painted with. *)
Inductive Op :=
| OpClearRect (x y w h : Q)
| OpFillRect (x y w h : Q) (paint : Paint) (alpha : Q) (flt : string)
| OpDrawImage (bmp : ImageBitmap) (sx sy sw sh dx dy dw dh : Q)
    (alpha : Q) (flt : string)
| OpFillText (text : string) (x y : Q) (paint : Paint) (fnt : Font)
    (align baseline : string) (alpha : Q) (flt : string)
| OpFillPath (p : list PathCmd) (paint : Paint) (alpha : Q) (flt : string).

Record Ctx := mkCtx {
  canvasWidth : Z;
  canvasHeight : Z;
  globalAlpha : Q;
  fillStyle : Paint;
  filterCss : string;
  font : Font;
  textAlign : string;
  textBaseline : string;
  currentPath : list PathCmd;
  surface : list Op
}.

(** The context of a canvas of the given size, as [getContext("2d")] first
    returns it. *)
Definition freshCtx (W H : Z) : Ctx :=
  mkCtx W H 1%Q (CssColor "#000000") "none"
    (mkFont 400 10 "sans-serif") "start" "alphabetic" [] [].

(** ** The monad of drawing code *)

Inductive Result (A : Type) :=
| Ok (a : A)
| Throw (error : string).

Arguments Ok {A} a.
Arguments Throw {A} error.

Definition Draw (A : Type) : Type := Ctx -> Result A * Ctx.

Definition ret {A : Type} (a : A) : Draw A := fun c => (Ok a, c).

Definition throw {A : Type} (error : string) : Draw A :=
  fun c => (Throw error, c).

Definition bind {A B : Type} (m : Draw A) (k : A -> Draw B) : Draw B :=
  fun c =>
    match m c with
    | (Ok a, c') => k a c'
    | (Throw e, c') => (Throw e, c')
    end.

Declare Scope draw_scope.
Delimit Scope draw_scope with draw.
Bind Scope draw_scope with Draw.

Notation "x <- m ;; k" := (bind m (fun x => k))
  (at level 61, m at next level, right associativity) : draw_scope.
Notation "m ;; k" := (bind m (fun _ => k))
  (at level 61, right associativity) : draw_scope.

Open Scope draw_scope.

Definition get {A : Type} (f : Ctx -> A) : Draw A := fun c => (Ok (f c), c).

Definition modify (f : Ctx -> Ctx) : Draw unit := fun c => (Ok tt, f c).

(** *** Attribute setters *)

Definition with_globalAlpha (v : Q) (c : Ctx) : Ctx :=
  mkCtx (canvasWidth c) (canvasHeight c) v (fillStyle c) (filterCss c)
    (font c) (textAlign c) (textBaseline c) (currentPath c) (surface c).

Definition with_fillStyle (p : Paint) (c : Ctx) : Ctx :=
  mkCtx (canvasWidth c) (canvasHeight c) (globalAlpha c) p (filterCss c)
    (font c) (textAlign c) (textBaseline c) (currentPath c) (surface c).

Definition with_filter (f : string) (c : Ctx) : Ctx :=
  mkCtx (canvasWidth c) (canvasHeight c) (globalAlpha c) (fillStyle c) f
    (font c) (textAlign c) (textBaseline c) (currentPath c) (surface c).

Definition with_font (f : Font) (c : Ctx) : Ctx :=
  mkCtx (canvasWidth c) (canvasHeight c) (globalAlpha c) (fillStyle c)
    (filterCss c) f (textAlign c) (textBaseline c) (currentPath c) (surface c).

Definition with_textAlign (a : string) (c : Ctx) : Ctx :=
  mkCtx (canvasWidth c) (canvasHeight c) (globalAlpha c) (fillStyle c)
    (filterCss c) (font c) a (textBaseline c) (currentPath c) (surface c).

Definition with_textBaseline (b : string) (c : Ctx) : Ctx :=
  mkCtx (canvasWidth c) (canvasHeight c) (globalAlpha c) (fillStyle c)
    (filterCss c) (font c) (textAlign c) b (currentPath c) (surface c).

Definition with_path (p : list PathCmd) (c : Ctx) : Ctx :=
  mkCtx (canvasWidth c) (canvasHeight c) (globalAlpha c) (fillStyle c)
    (filterCss c) (font c) (textAlign c) (textBaseline c) p (surface c).

Definition with_surface (s : list Op) (c : Ctx) : Ctx :=
  mkCtx (canvasWidth c) (canvasHeight c) (globalAlpha c) (fillStyle c)
    (filterCss c) (font c) (textAlign c) (textBaseline c) (currentPath c) s.

(** [ctx.globalAlpha = v]: a value outside [0, 1] is ignored. *)
Definition set_globalAlpha (v : Q) : Draw unit :=
  modify (fun c =>
    if Qle_bool 0 v && Qle_bool v 1 then with_globalAlpha v c else c).

Definition set_fillStyle (p : Paint) : Draw unit := modify (with_fillStyle p).
Definition set_filter (f : string) : Draw unit := modify (with_filter f).
Definition set_font (f : Font) : Draw unit := modify (with_font f).
Definition set_textAlign (a : string) : Draw unit := modify (with_textAlign a).
Definition set_textBaseline (b : string) : Draw unit :=
  modify (with_textBaseline b).

(** *** Painting calls *)

Definition paintOp (o : Op) : Draw unit :=
  modify (fun c => with_surface (surface c ++ [o]) c).

(** [ctx.clearRect(x, y, w, h)]: a rectangle that covers the canvas empties
    the display list; a smaller one is recorded. *)
Definition clearRect (x y w h : Q) : Draw unit :=
  modify (fun c =>
    if Qle_bool x 0 && Qle_bool y 0
       && Qle_bool (inject_Z (canvasWidth c)) (x + w)
       && Qle_bool (inject_Z (canvasHeight c)) (y + h)
    then with_surface [] c
    else with_surface (surface c ++ [OpClearRect x y w h]) c).

Definition fillRect (x y w h : Q) : Draw unit :=
  fun c => paintOp (OpFillRect x y w h (fillStyle c) (globalAlpha c)
                      (filterCss c)) c.

Definition drawImage (bmp : ImageBitmap) (sx sy sw sh dx dy dw dh : Q)
  : Draw unit :=
  fun c => paintOp (OpDrawImage bmp sx sy sw sh dx dy dw dh (globalAlpha c)
                      (filterCss c)) c.

Definition fillText (text : string) (x y : Q) : Draw unit :=
  fun c => paintOp (OpFillText text x y (fillStyle c) (font c) (textAlign c)
                      (textBaseline c) (globalAlpha c) (filterCss c)) c.

Definition beginPath : Draw unit := modify (with_path []).

Definition pathCmd (p : PathCmd) : Draw unit :=
  modify (fun c => with_path (currentPath c ++ [p]) c).

Definition fill : Draw unit :=
  fun c => paintOp (OpFillPath (currentPath c) (fillStyle c) (globalAlpha c)
                      (filterCss c)) c.

(** [Math.round]: the nearest integer, halves upwards. *)
Definition Math_round (x : Q) : Z := Qfloor (x + 0.5).

(** The font of every text of the program. *)
Definition uiFont (weight px : Z) : Font :=
  mkFont weight px "ui-sans-serif, system-ui".

(** ** The imported motion library *)

Record Rect := mkRect { rx : Q; ry : Q; rw : Q; rh : Q }.

Record MotionPath := mkPath {
  startScale : Q; endScale : Q;
  startX : Q; endX : Q;
  startY : Q; endY : Q
}.

(** The three imports of ["@/lib/kenburns"] (line 4). *)
Record KenBurns := mkKenBurns {
  fitCover : Q -> Q -> Q -> Q -> Rect;
  kenBurnsPath : nat -> MotionPath;
  lerp : Q -> Q -> Q -> Q
}.

(** ** The frame renderer (lines 64-241) *)

Section Renderer.

Variable K : KenBurns.

Local Open Scope Q_scope.

Definition colorGrade : string :=
  "contrast(1.12) saturate(0.95) brightness(1.05)".

Definition canvasW : Draw Q := get (fun c => inject_Z (canvasWidth c)).
Definition canvasH : Draw Q := get (fun c => inject_Z (canvasHeight c)).

(** [drawIntro] (lines 116-144). *)
Definition drawIntro (bmp : option ImageBitmap) (title subtitle : string)
  (prog : Q) (st : Style) : Draw unit :=
  W <- canvasW ;;
  H <- canvasH ;;
  match bmp with
  | Some bmp =>
      let bw := inject_Z (bmpWidth bmp) in
      let bh := inject_Z (bmpHeight bmp) in
      let fit := fitCover K bw bh W H in
      let zoom := 1.04 + prog * 0.04 in
      let cx := rx fit + rw fit * 0.5 in
      let cy := ry fit + rh fit * 0.5 in
      let w := rw fit * zoom in
      let h := rh fit * zoom in
      set_globalAlpha 0.9 ;;
      drawImage bmp 0 0 bw bh (cx - w / 2) (cy - h / 2) w h ;;
      set_globalAlpha 1 ;;
      set_fillStyle (CssColor "rgba(0,0,0,0.35)") ;;
      fillRect 0 0 W H
  | None => ret tt
  end ;;
  let fade := Qmin 1 (prog * 1.5) in
  set_fillStyle (RgbaWhite fade) ;;
  set_textAlign "left" ;;
  set_textBaseline "alphabetic" ;;
  set_font (uiFont 700 (Math_round (W * 0.055))) ;;
  fillText title (W * 0.08) (H * 0.52) ;;
  set_globalAlpha 0.9 ;;
  set_font (uiFont 400 (Math_round (W * 0.025))) ;;
  fillText subtitle (W * 0.08) (H * 0.58) ;;
  set_globalAlpha 1.

(** [if (caption)]: [undefined] and the empty string are falsy. *)
Definition truthy (caption : option string) : option string :=
  match caption with
  | Some EmptyString => None
  | other => other
  end.

(** [drawImageScene] (lines 146-178). *)
Definition drawImageScene (bmp : option ImageBitmap) (caption : option string)
  (index : nat) (prog : Q) (st : Style) : Draw unit :=
  W <- canvasW ;;
  H <- canvasH ;;
  match bmp with
  | Some bmp =>
      let bw := inject_Z (bmpWidth bmp) in
      let bh := inject_Z (bmpHeight bmp) in
      let fit := fitCover K bw bh W H in
      let path := kenBurnsPath K index in
      let scale := lerp K (startScale path) (endScale path) prog in
      let panX := lerp K (startX path) (endX path) prog in
      let panY := lerp K (startY path) (endY path) prog in
      let viewW := rw fit * scale in
      let viewH := rh fit * scale in
      let x := rx fit + (rw fit - viewW) * panX in
      let y := ry fit + (rh fit - viewH) * panY in
      set_globalAlpha 1 ;;
      drawImage bmp 0 0 bw bh x y viewW viewH ;;
      let grad := LinearGradient 0 (H * 0.7) 0 H [] in
      let grad := addColorStop grad 0 "rgba(0,0,0,0)" in
      let grad := addColorStop grad 1 "rgba(0,0,0,0.55)" in
      set_fillStyle grad ;;
      fillRect 0 (H * 0.7) W (H * 0.3)
  | None => ret tt
  end ;;
  match truthy caption with
  | Some caption =>
      set_textAlign "left" ;;
      set_textBaseline "alphabetic" ;;
      set_fillStyle (CssColor "white") ;;
      set_font (uiFont 600 (Math_round (W * 0.032))) ;;
      fillText caption (W * 0.06) (H * 0.92)
  | None => ret tt
  end.

(** [roundRect] (lines 213-222). *)
Definition roundRect (x y w h r : Q) : Draw unit :=
  let rr := Qmin (Qmin r (w / 2)) (h / 2) in
  beginPath ;;
  pathCmd (MoveTo (x + rr) y) ;;
  pathCmd (ArcTo (x + w) y (x + w) (y + h) rr) ;;
  pathCmd (ArcTo (x + w) (y + h) x (y + h) rr) ;;
  pathCmd (ArcTo x (y + h) x y rr) ;;
  pathCmd (ArcTo x y (x + w) y rr) ;;
  pathCmd ClosePath.

(** [drawPrice] (lines 180-211). *)
Definition drawPrice (priceText ctaText : string) (prog : Q) (st : Style)
  : Draw unit :=
  W <- canvasW ;;
  H <- canvasH ;;
  let g := LinearGradient 0 0 W H [] in
  let g := addColorStop g 0 "#1f1c2c" in
  let g := addColorStop g 1 "#928DAB" in
  set_fillStyle g ;;
  fillRect 0 0 W H ;;
  let fade := Qmin 1 (prog * 1.5) in
  set_globalAlpha (0.9 * fade) ;;
  set_fillStyle (CssColor "white") ;;
  set_textAlign "center" ;;
  set_textBaseline "alphabetic" ;;
  set_font (uiFont 800 (Math_round (W * 0.095))) ;;
  fillText priceText (W / 2) (H * 0.48) ;;
  set_globalAlpha (1 * fade) ;;
  let pillW := W * 0.36 in
  let pillH := inject_Z (Math_round (W * 0.06)) in
  let x := W / 2 - pillW / 2 in
  let y := H * 0.58 - pillH / 2 in
  let r := pillH / 2 in
  set_fillStyle (CssColor "#6366f1") ;;
  roundRect x y pillW pillH r ;;
  fill ;;
  set_fillStyle (CssColor "white") ;;
  set_font (uiFont 600 (Math_round (W * 0.03))) ;;
  fillText ctaText (W / 2) (H * 0.59 + inject_Z (Math_round (W * 0.012))).

(** [drawVignette] (lines 224-231). *)
Definition drawVignette : Draw unit :=
  W <- canvasW ;;
  H <- canvasH ;;
  let grad := RadialGradient (W / 2) (H / 2) (Qmin W H * 0.3)
                (W / 2) (H / 2) (Qmax W H * 0.7) [] in
  let grad := addColorStop grad 0 "rgba(0,0,0,0)" in
  let grad := addColorStop grad 1 "rgba(0,0,0,0.5)" in
  set_fillStyle grad ;;
  fillRect 0 0 W H.

Definition letterboxColor : string := "rgba(0,0,0,0.75)".

(** [drawLetterbox] (lines 233-241). *)
Definition drawLetterbox : Draw unit :=
  W <- canvasW ;;
  H <- canvasH ;;
  let targetH := Qmin H (inject_Z (Math_round (W / 2.35))) in
  let pad := Qmax 0 ((H - targetH) / 2) in
  set_fillStyle (CssColor letterboxColor) ;;
  fillRect 0 0 W pad ;;
  fillRect 0 (H - pad) W pad.

Definition style_eqb (a b : Style) : bool :=
  match a, b with
  | cinematic, cinematic | modern, modern | minimal, minimal => true
  | _, _ => false
  end.

(** Lines 65-70: clear, then the black background. *)
Definition drawBackground : Draw unit :=
  W <- canvasW ;;
  H <- canvasH ;;
  clearRect 0 0 W H ;;
  set_fillStyle (CssColor "black") ;;
  fillRect 0 0 W H.

(** Lines 72-85: the scene list, the clamped time and the lookup. *)
Definition locateScene (cmp : Composer) (tMs : Q) : option Scene :=
  let scenes := buildScenes (List.length (bitmaps cmp)) in
  let time := clampTime tMs (totalOf cmp) in
  findScene time scenes.

(** Lines 86-87; [scene] is what the lookup returned. *)
Definition sceneProgress (cmp : Composer) (tMs : Q) (scene : Scene) : Q :=
  let time := clampTime tMs (totalOf cmp) in
  let local := time - inject_Z (start scene) in
  local / (inject_Z (end_ scene) - inject_Z (start scene)).

(** Lines 92-104: the dispatch on the scene's kind. *)
Definition drawScene (cmp : Composer) (scene : Scene) (prog : Q) : Draw unit :=
  let p := props cmp in
  match kind scene with
  | Intro =>
      drawIntro (nth_error (bitmaps cmp) 0) (productName p) (tagline p)
        prog (style p)
  | Image =>
      match idx scene with
      | Some i =>
          drawImageScene (nth_error (bitmaps cmp) i)
            (nth_error (features p) i) i prog (style p)
      | None => drawImageScene None None 0 prog (style p)
      end
  | Price => drawPrice (price p) (cta p) prog (style p)
  | Outro =>
      W <- canvasW ;;
      H <- canvasH ;;
      set_fillStyle (CssColor "black") ;;
      set_globalAlpha prog ;;
      fillRect 0 0 W H ;;
      set_globalAlpha 1
  end.

(** Lines 86-113 of [drawFrame], once the lookup has returned [scene]. *)
Definition renderScene (cmp : Composer) (tMs : Q) (scene : Scene)
  : Draw unit :=
  let prog := sceneProgress cmp tMs scene in
  let st := style (props cmp) in
  set_filter (if style_eqb st minimal then "none" else colorGrade) ;;
  drawScene cmp scene prog ;;
  (if negb (style_eqb st minimal) then drawVignette else ret tt) ;;
  (if style_eqb st cinematic then drawLetterbox else ret tt) ;;
  set_filter "none".

(** [drawFrame] (lines 64-114).  The non-null assertion of line 85 does not
    check anything: when the lookup returns [undefined], reading
    [scene.start] on line 86 throws a [TypeError]. *)
Definition drawFrame (cmp : Composer) (tMs : Q) : Draw unit :=
  drawBackground ;;
  match locateScene cmp tMs with
  | None => throw "TypeError"
  | Some scene => renderScene cmp tMs scene
  end.

(** The per-scene draw with nothing applied to it: [drawFrame] without its
    colour grade (line 90), vignette (line 107), letterbox (line 110) and
    filter reset (line 113). *)
Definition drawSceneOnly (cmp : Composer) (tMs : Q) : Draw unit :=
  drawBackground ;;
  match locateScene cmp tMs with
  | None => throw "TypeError"
  | Some scene => drawScene cmp scene (sceneProgress cmp tMs scene)
  end.

End Renderer.

(** ** The capture driver (lines 263-343) *)

(** What the program asks of the browser: [mediaRecorder] is
    [window.MediaRecorder], given by its [isTypeSupported], and [None] on a
    host without the class; [audioTrack] tells whether the audio element's
    [captureStream] yields an audio track. *)
Record Host := mkHost {
  mediaRecorder : option (string -> bool);
  audioTrack : bool
}.

Definition cand : list string :=
  [ "video/webm;codecs=vp9,opus";
    "video/webm;codecs=vp8,opus";
    "video/webm" ]%string.

(** [(window as any).MediaRecorder && MediaRecorder.isTypeSupported(m)] *)
Definition hostSupports (h : Host) (m : string) : bool :=
  match mediaRecorder h with
  | Some isTypeSupported => isTypeSupported m
  | None => false
  end.

(** The [for (const m of cand)] loop with its early [return m]. *)
Fixpoint selectLoop (h : Host) (ms : list string) : option string :=
  match ms with
  | [] => None
  | m :: rest => if hostSupports h m then Some m else selectLoop h rest
  end.

(** [selectMimeType] (lines 333-343). *)
Definition selectMimeType (h : Host) : string :=
  match selectLoop h cand with
  | Some m => m
  | None => "video/webm"
  end.

(** [new MediaRecorder(combined, { mimeType: mime, ... })] (line 295): the
    name is unbound on a host without the class, and the constructor refuses
    a type the host does not support. *)
Definition newMediaRecorder (h : Host) (mime : string) : Result unit :=
  match mediaRecorder h with
  | None => Throw "ReferenceError"
  | Some isTypeSupported =>
      if isTypeSupported mime then Ok tt else Throw "NotSupportedError"
  end.

(** What one capture does to the outside, in order. *)
Inductive Event :=
| EvFrame (tMs : Q)
| EvNewRecorder (mime : string) (withAudio : bool)
| EvRecorderStart
| EvAudioPlay
| EvRecorderStop
| EvAudioPause.

(** How the frame-stepped loop stands once the callbacks delivered so far
    have run: finished ([res()] was called), dead (a callback threw, so no
    further one is scheduled and [res] is never called), or waiting for the
    next callback. *)
Inductive LoopEnd :=
| LoopDone
| LoopThrew (error : string)
| LoopWaiting.

(** The promise [startRecording] returns. *)
Inductive Capture :=
| Resolved (blobType : string)
| Rejected (error : string)
| Stalled (error : string)
| Pending.

(** Whether an audio file was given (lines 277, 308). *)
Definition hasAudio (cmp : Composer) : bool :=
  match audioFile (props cmp) with
  | Some _ => true
  | None => false
  end.

(** Lines 270-310: the priming frame, the recorder built on the canvas
    stream and the audio track if there is one, [recorder.start()], and the
    audio playback. *)
Definition captureOpening (h : Host) (cmp : Composer) : list Event :=
  [ EvFrame 0;
    EvNewRecorder (selectMimeType h) (hasAudio cmp && audioTrack h);
    EvRecorderStart ]
  ++ (if hasAudio cmp then [EvAudioPlay] else []).

(** Lines 325 and 302-305: [recorder.stop()], then its [onstop] handler. *)
Definition captureClosing (cmp : Composer) : list Event :=
  EvRecorderStop :: (if hasAudio cmp then [EvAudioPause] else []).

Section Capture.

Variable K : KenBurns.

(** The [step] callback loop (lines 314-323).  [nows] are the readings of
    [performance.now()] in the successive callbacks. *)
Fixpoint stepLoop (cmp : Composer) (start : Q) (duration : Z)
  (nows : list Q) (c : Ctx) : LoopEnd * list Event * Ctx :=
  match nows with
  | [] => (LoopWaiting, [], c)
  | now :: rest =>
      let t := (now - start)%Q in
      let clamped := Qmin t (inject_Z (duration - 1)) in
      match drawFrame K cmp clamped c with
      | (Throw e, c') => (LoopThrew e, [], c')
      | (Ok _, c') =>
          if Qlt_bool t (inject_Z duration)
          then
            let '(r, evs, c'') := stepLoop cmp start duration rest c' in
            (r, EvFrame clamped :: evs, c'')
          else (LoopDone, [EvFrame clamped], c')
      end
  end.

(** [startRecording] (lines 265-327).  [start] is the reading of line 313. *)
Definition startRecording (h : Host) (cmp : Composer) (start : Q)
  (nows : list Q) (c : Ctx) : Capture * list Event * Ctx :=
  match drawFrame K cmp 0 c with
  | (Throw e, c1) => (Rejected e, [], c1)
  | (Ok _, c1) =>
      let mime := selectMimeType h in
      match newMediaRecorder h mime with
      | Throw e => (Rejected e, [EvFrame 0], c1)
      | Ok _ =>
          let duration := totalOf cmp in
          match stepLoop cmp start duration nows c1 with
          | (LoopDone, evs, c2) =>
              (Resolved mime,
               captureOpening h cmp ++ evs ++ captureClosing cmp, c2)
          | (LoopThrew e, evs, c2) =>
              (Stalled e, captureOpening h cmp ++ evs, c2)
          | (LoopWaiting, evs, c2) =>
              (Pending, captureOpening h cmp ++ evs, c2)
          end
      end
  end.

End Capture.

(** ** The dropzone (AssetDropzone.tsx, lines 20-30) *)

(** [Array.from(list ?? [])] *)
Definition filesOrEmpty (fl : option (list File)) : list File :=
  match fl with
  | Some l => l
  | None => []
  end.

(** [if (files.length) onFiles(multiple ? files : [files[0]])]: the calls
    made to [onFiles], each with its argument. *)
Definition callOnFiles (multiple : bool) (files : list File)
  : list (list File) :=
  match files with
  | [] => []
  | first :: _ => [if multiple then files else [first]]
  end.

Definition onInputChange (multiple : bool) (targetFiles : option (list File))
  : list (list File) :=
  callOnFiles multiple (filesOrEmpty targetFiles).

Record DropOutcome := mkDropOutcome {
  defaultPrevented : bool;
  isOver : bool;
  onFilesCalls : list (list File)
}.

Definition onDrop (multiple : bool) (dataTransferFiles : option (list File))
  : DropOutcome :=
  mkDropOutcome true false
    (callOnFiles multiple (filesOrEmpty dataTransferFiles)).

(** ** The page (the unnamed part 000, lines 92-105) *)

(** [onFiles={(fs) => setAudioFile(fs[0] ?? null)}] *)
Definition pickAudio (fs : list File) : option File := hd_error fs.


(** ** A stand-in for the imported motion library *)

(** Modelled from the spec: [fitCover], [lerp] and [kenBurnsPath] of
    ["@/lib/kenburns"], whose file is not among the sources.  The spec gives
    [fitCover] as the centred cover fit and the motion path as a fixed table
    of presets selected by the index modulo the table size, and linear
    interpolation for [lerp]; the preset values are the spec's free choice.
    Only closed examples use this instance: every theorem about the renderer
    holds for all [K]. *)
Definition specFitCover (srcW srcH dstW dstH : Q) : Rect :=
  let scale := Qmax (dstW / srcW) (dstH / srcH) in
  let w := (srcW * scale)%Q in
  let h := (srcH * scale)%Q in
  mkRect ((dstW - w) / 2)%Q ((dstH - h) / 2)%Q w h.

Definition specPresets : list MotionPath :=
  [ mkPath 1 1.12 0 1 0.5 0.5;
    mkPath 1.12 1 1 0 0.5 0.5;
    mkPath 1 1.12 0.5 0.5 1 0 ]%Q.

Definition specKenBurnsPath (index : nat) : MotionPath :=
  nth (index mod 3) specPresets (mkPath 1 1 0 0 0 0).

Definition specLerp (a b t : Q) : Q := (a + (b - a) * t)%Q.

Definition specK : KenBurns :=
  mkKenBurns specFitCover specKenBurnsPath specLerp.

(** ** The preview driver (lines 60-62, 244-260) *)

(** The integer part of a quotient, rounded towards zero. *)
Definition Qtrunc (x : Q) : Z :=
  if Qle_bool 0 x then Qfloor x else Qceiling x.

(** [x % m] on numbers: the remainder has the sign of the dividend.  (For
    [m = 0] JavaScript gives [NaN]; the program only divides by
    [Math.max(totalDurationMs, 1)].) *)
Definition jsRem (x m : Q) : Q := (x - m * inject_Z (Qtrunc (x / m)))%Q.

(** The two refs of lines 61-62: the origin of the preview clock, and
    whether a callback is scheduled. *)
Record PreviewRefs := mkRefs {
  previewStartRef : option Q;
  rafScheduled : bool
}.

(** Lines 252-254: the origin the callback uses, and the time it renders. *)
Definition previewOrigin (refs : PreviewRefs) (ts : Q) : Q :=
  match previewStartRef refs with
  | Some s => s
  | None => ts
  end.

Definition previewElapsed (cmp : Composer) (refs : PreviewRefs) (ts : Q) : Q :=
  jsRem (ts - previewOrigin refs ts) (inject_Z (Z.max (totalOf cmp) 1)).

Section Preview.

Variable K : KenBurns.

(** The [loop] callback (lines 251-257): an exception of [drawFrame] leaves
    it before the next callback is requested. *)
Definition loop (cmp : Composer) (refs : PreviewRefs) (ts : Q) (c : Ctx)
  : Result unit * PreviewRefs * Ctx :=
  let start := previewOrigin refs ts in
  let elapsed := previewElapsed cmp refs ts in
  match drawFrame K cmp elapsed c with
  | (Ok _, c') => (Ok tt, mkRefs (Some start) true, c')
  | (Throw e, c') => (Throw e, mkRefs (Some start) false, c')
  end.

(** The preview over the timestamps [tss] the host passes to the successive
    callbacks: the times rendered, while a callback is scheduled. *)
Fixpoint previewRun (cmp : Composer) (refs : PreviewRefs) (tss : list Q)
  (c : Ctx) : list Q * PreviewRefs * Ctx :=
  match tss with
  | [] => ([], refs, c)
  | ts :: rest =>
      match loop cmp refs ts c with
      | (Ok _, refs', c') =>
          let '(times, refs'', c'') := previewRun cmp refs' rest c' in
          (previewElapsed cmp refs ts :: times, refs'', c'')
      | (Throw _, refs', c') => ([], refs', c')
      end
  end.

End Preview.

(** Line 358: [Math.round(totalDurationMs / 100) / 10], the seconds shown
    under the canvas. *)
Definition shownSeconds (total : Z) : Q :=
  (inject_Z (Math_round (inject_Z total / 100)) / 10)%Q.

(** Line 348: the CSS [aspect-ratio] of the box, as numerator and
    denominator. *)
Definition cssAspectRatio (r : Ratio) : Z * Z :=
  match r with
  | R16_9 => (16, 9)
  | R9_16 => (9, 16)
  | R1_1 => (1, 1)
  end.

(** ** The page: state and handlers (part 000, lines 8-42, 59, 92-101) *)

Record PageState := mkPage {
  pageProps : Props;
  isRecording : bool;
  videoUrl : option string
}.

Definition with_assets (fs : list File) (p : Props) : Props :=
  mkProps fs (audioFile p) (productName p) (tagline p) (features p) (cta p)
    (price p) (ratio p) (style p).

Definition with_audioFile (f : option File) (p : Props) : Props :=
  mkProps (assets p) f (productName p) (tagline p) (features p) (cta p)
    (price p) (ratio p) (style p).

Definition with_features (fs : list string) (p : Props) : Props :=
  mkProps (assets p) (audioFile p) (productName p) (tagline p) fs (cta p)
    (price p) (ratio p) (style p).

Definition with_pageProps (p : Props) (s : PageState) : PageState :=
  mkPage p (isRecording s) (videoUrl s).

(** [s.split(sep)] for a one-character separator. *)
Fixpoint split (sep : Ascii.ascii) (s : string) : list string :=
  match s with
  | EmptyString => [EmptyString]
  | String ch rest =>
      if Ascii.eqb ch sep then EmptyString :: split sep rest
      else match split sep rest with
           | cur :: more => String ch cur :: more
           | [] => [String ch EmptyString]
           end
  end.

(** [l.join(sep)] *)
Fixpoint join (sep : string) (l : list string) : string :=
  match l with
  | [] => EmptyString
  | x :: rest =>
      match rest with
      | [] => x
      | _ :: _ => (x ++ sep ++ join sep rest)%string
      end
  end.

Definition newline : Ascii.ascii := Ascii.ascii_of_nat 10.

Definition nonEmpty (s : string) : bool :=
  match s with
  | EmptyString => false
  | String _ _ => true
  end.

(** Line 59, [onChange]: [e.target.value.split("\n").filter(Boolean)]. *)
Definition parseFeatures (value : string) : list string :=
  filter nonEmpty (split newline value).

(** Line 59, [value]: [features.join("\n")]. *)
Definition featuresText (fs : list string) : string :=
  join (String newline EmptyString) fs.

(** The [onFiles] callbacks of the two dropzones (lines 92 and 97), run on
    every call a dropzone handler makes. *)
Definition assetsOnFiles (fs : list File) (s : PageState) : PageState :=
  with_pageProps (with_assets fs (pageProps s)) s.

Definition audioOnFiles (fs : list File) (s : PageState) : PageState :=
  with_pageProps (with_audioFile (pickAudio fs) (pageProps s)) s.

Definition dropOnAssets (eventFiles : option (list File)) (s : PageState)
  : PageState :=
  fold_left (fun st fs => assetsOnFiles fs st)
    (onFilesCalls (onDrop true eventFiles)) s.

Definition dropOnAudio (eventFiles : option (list File)) (s : PageState)
  : PageState :=
  fold_left (fun st fs => audioOnFiles fs st)
    (onFilesCalls (onDrop false eventFiles)) s.

(** Lines 33 and 101: [hasAssets], and the [disabled] of the button. *)
Definition hasAssets (s : PageState) : bool :=
  negb (Nat.eqb (List.length (assets (pageProps s))) 0).

Definition generateDisabled (s : PageState) : bool :=
  negb (hasAssets s) || isRecording s.

(** [URL.createObjectURL(blob)], as the type of the blob it names. *)
Definition objectUrl (blobType : string) : string :=
  ("blob:" ++ blobType)%string.

(** [handleGenerate] (lines 35-42), given how the promise of
    [startRecording] ends: the two statements after the [await] run only
    when it resolves. *)
Definition handleGenerate (capture : Capture) (s : PageState) : PageState :=
  let s1 := mkPage (pageProps s) (isRecording s) None in
  let s2 := mkPage (pageProps s1) true (videoUrl s1) in
  match capture with
  | Resolved blobType =>
      let s3 := mkPage (pageProps s2) false (videoUrl s2) in
      mkPage (pageProps s3) (isRecording s3) (Some (objectUrl blobType))
  | Rejected _ | Stalled _ | Pending => s2
  end.

(** The component the page mounts (lines 111-122), with the bitmaps and
    the memo it holds. *)
Definition composerOf (s : PageState) (bmps : list ImageBitmap)
  (memoAssets : nat) : Composer :=
  mkComposer (pageProps s) bmps memoAssets.

(** * Part II: vocabulary of the properties *)

(** ** Sample inputs

    The page's default copy (part 000, lines 10-22) on a 16:9 canvas, with
    [a] dropped image files of which [b] are decoded. *)

Definition sampleFile : File := mkFile "lamp.png" "image/png".

Definition sampleProps (st : Style) (a : nat) : Props :=
  mkProps (repeat sampleFile a) None "Aurora Lamp" "Light. Sculpted."
    [ "Premium anodized aluminum"; "Adaptive ambient glow";
      "12h battery life" ]%string
    "Shop Now" "$129" R16_9 st.

Definition sampleBitmaps (b : nat) : list ImageBitmap :=
  map (mkBitmap 1600 900) (seq 0 b).

Definition sampleComposer (st : Style) (b a : nat) : Composer :=
  mkComposer (sampleProps st a) (sampleBitmaps b) a.

Definition sampleCtx : Ctx :=
  let '(w, h) := layoutSize R16_9 in freshCtx w h.

Definition isImage (s : Scene) : bool :=
  match kind s with Image => true | _ => false end.

(** The end of the scene list built for [n] bitmaps. *)
Definition scenesEnd (n : nat) : Z :=
  introMs + Z.of_nat n * perImageMs + priceMs + outroMs.

(** [Chain lo hi l]: the scenes of [l] are non-empty intervals, the first
    starts at [lo], each starts where the one before ends, the last ends at
    [hi]. *)
Inductive Chain : Z -> Z -> list Scene -> Prop :=
| Chain_nil : forall lo, Chain lo lo []
| Chain_cons : forall s l hi,
    start s < end_ s -> Chain (end_ s) hi l -> Chain (start s) hi (s :: l).

(** The image scenes the loop appends, as a list of its own. *)
Fixpoint imageScenes (remaining i : nat) (cursor : Z) : list Scene :=
  match remaining with
  | O => []
  | S r => mkScene Image (Some i) cursor (cursor + perImageMs)
           :: imageScenes r (S i) (cursor + perImageMs)
  end.

(** A drawing computation that cannot throw. *)
Definition total_draw {A : Type} (m : Draw A) : Prop :=
  forall c, exists a c', m c = (Ok a, c').

(** The fields of a display-list entry. *)
Definition op_alpha (o : Op) : option Q :=
  match o with
  | OpClearRect _ _ _ _ => None
  | OpFillRect _ _ _ _ _ a _ => Some a
  | OpDrawImage _ _ _ _ _ _ _ _ _ a _ => Some a
  | OpFillText _ _ _ _ _ _ _ a _ => Some a
  | OpFillPath _ _ a _ => Some a
  end.

Definition op_filter (o : Op) : option string :=
  match o with
  | OpClearRect _ _ _ _ => None
  | OpFillRect _ _ _ _ _ _ f => Some f
  | OpDrawImage _ _ _ _ _ _ _ _ _ _ f => Some f
  | OpFillText _ _ _ _ _ _ _ _ f => Some f
  | OpFillPath _ _ _ f => Some f
  end.

Definition op_paint (o : Op) : option Paint :=
  match o with
  | OpFillRect _ _ _ _ p _ _ => Some p
  | OpFillText _ _ _ p _ _ _ _ _ => Some p
  | OpFillPath _ p _ _ => Some p
  | _ => None
  end.

(** The paint of the letterbox bars, and the paint of the vignette. *)
Definition isBarPaint (p : Paint) : bool :=
  match p with
  | CssColor css => String.eqb css letterboxColor
  | _ => false
  end.

Definition isRadial (p : Paint) : bool :=
  match p with
  | RadialGradient _ _ _ _ _ _ _ => true
  | _ => false
  end.

(** A letterbox bar: a rectangle filled with the letterbox colour. *)
Definition isLetterboxBar (o : Op) : bool :=
  match o with
  | OpFillRect _ _ _ _ p _ _ => isBarPaint p
  | _ => false
  end.

(** The vignette: anything painted with a radial gradient. *)
Definition isVignette (o : Op) : bool :=
  match op_paint o with
  | Some p => isRadial p
  | None => false
  end.

(** An entry painted through the colour-grade filter. *)
Definition isGraded (o : Op) : bool :=
  match op_filter o with
  | Some f => negb (String.eqb f "none")
  | None => false
  end.

(** No vignette, no letterbox bar, no colour grade. *)
Definition isPlain (o : Op) : bool :=
  negb (isVignette o) && negb (isLetterboxBar o) && negb (isGraded o).

(** A rule on what may be painted: which paints and which filters. *)
Record PaintRule := mkRule {
  okPaint : Paint -> bool;
  okFilter : string -> bool
}.

Definition okOp (R : PaintRule) (o : Op) : bool :=
  match op_paint o with Some p => okPaint R p | None => true end
  && match op_filter o with Some f => okFilter R f | None => true end.

(** The context obeys the rule: its current paint and filter do, and so
    does everything on its display list. *)
Definition ctxInv (R : PaintRule) (c : Ctx) : Prop :=
  okPaint R (fillStyle c) = true
  /\ okFilter R (filterCss c) = true
  /\ forallb (okOp R) (surface c) = true.

Definition preserves {A : Type} (I : Ctx -> Prop) (m : Draw A) : Prop :=
  forall c, I c -> I (snd (m c)).

(** The paints of the scenes: neither the letterbox colour nor a radial
    gradient. *)
Definition scenePaint (p : Paint) : bool :=
  negb (isBarPaint p) && negb (isRadial p).

Definition ruleMinimal : PaintRule :=
  mkRule scenePaint (fun f => String.eqb f "none").

Definition ruleNoBar : PaintRule :=
  mkRule (fun p => negb (isBarPaint p)) (fun _ => true).

(** The time the frame-stepped loop renders at the reading [now]. *)
Definition clampedElapsed (start : Q) (duration : Z) (now : Q) : Q :=
  Qmin (now - start) (inject_Z (duration - 1)).

(** Each element is at most the next, and below [cap] strictly less. *)
Fixpoint risesTo (cap : Q) (l : list Q) : Prop :=
  match l with
  | [] => True
  | x :: rest =>
      match rest with
      | [] => True
      | y :: _ => (x <= y)%Q /\ ((x < cap)%Q -> (x < y)%Q)
      end
      /\ risesTo cap rest
  end.

(** A browser with [MediaRecorder] that supports every type asked, one
    without the class, and one whose [MediaRecorder] supports no WebM. *)
Definition hostAll : Host := mkHost (Some (fun _ => true)) true.
Definition hostNoRecorder : Host := mkHost None false.
Definition hostNoWebm : Host := mkHost (Some (fun _ => false)) true.

(** The global alpha of the first entry of a display list, in lowest terms. *)
Definition backgroundAlpha (ops : list Op) : option Q :=
  match ops with
  | o :: _ => option_map Qred (op_alpha o)
  | [] => None
  end.

(** The timestamps of the frames in a trace of events. *)
Fixpoint frameTimes (evs : list Event) : list Q :=
  match evs with
  | [] => []
  | EvFrame t :: rest => t :: frameTimes rest
  | _ :: rest => frameTimes rest
  end.

(** The renders of the component so far, each with the [bitmaps.length] and
    [assets.length] it saw: the memo cell they leave. *)
Definition memoAfter (renders : list (nat * nat)) : option MemoCell :=
  fold_left (fun cell ba => Some (useMemoTotal cell (fst ba) (snd ba)))
    renders None.

(** What the bitmap-loading effect keeps of one file. *)
Definition decoded (decode : File -> option ImageBitmap) (f : File)
  : list ImageBitmap :=
  if String.prefix "image/" (fileType f)
  then match decode f with Some bmp => [bmp] | None => [] end
  else [].

(** The image scene of the asset index [i]. *)
Definition imageScene (i : nat) : Scene :=
  mkScene Image (Some i)
    (introMs + Z.of_nat i * perImageMs)
    (introMs + Z.of_nat (S i) * perImageMs).

Definition priceScene (n : nat) : Scene :=
  mkScene Price None (introMs + Z.of_nat n * perImageMs)
    (introMs + Z.of_nat n * perImageMs + priceMs).

Definition outroScene (n : nat) : Scene :=
  mkScene Outro None (introMs + Z.of_nat n * perImageMs + priceMs)
    (scenesEnd n).

(** The fade of the intro and price texts: [Math.min(1, prog * 1.5)]. *)
Definition fadeOf (prog : Q) : Q := Qmin 1 (prog * 1.5).

(** A drawing computation that leaves the global alpha at [v]. *)
Definition sets_alpha {A : Type} (v : Q) (m : Draw A) : Prop :=
  forall c, globalAlpha (snd (m c)) = v.

(** A string without line break. *)
Fixpoint oneLine (s : string) : bool :=
  match s with
  | EmptyString => true
  | String ch rest => negb (Ascii.eqb ch newline) && oneLine rest
  end.

(** A property of the context kept by every attribute setter other than
    the one of the global alpha, and by every painting call that appends to
    the display list. *)
Definition framedRest (I : Ctx -> Prop) : Prop :=
  (forall p c, I c -> I (with_fillStyle p c))
  /\ (forall f c, I c -> I (with_filter f c))
  /\ (forall f c, I c -> I (with_font f c))
  /\ (forall a c, I c -> I (with_textAlign a c))
  /\ (forall b c, I c -> I (with_textBaseline b c))
  /\ (forall p c, I c -> I (with_path p c))
  /\ (forall o c, I c -> I (with_surface (surface c ++ [o]) c)).

(** A property kept by setting the global alpha. *)
Definition framedAlpha (I : Ctx -> Prop) : Prop :=
  forall v c, I c -> I (with_globalAlpha v c).

(** The global alpha is [v]. *)
Definition alphaIs (v : Q) (c : Ctx) : Prop := globalAlpha c = v.

(** A value the setter of the global alpha accepts. *)
Definition validAlpha (v : Q) : bool := Qle_bool 0 v && Qle_bool v 1.

(** The display list begins with [base]. *)
Definition startsWith (base : list Op) (c : Ctx) : Prop :=
  exists extra, surface c = base ++ extra.

(** The canvas has the size [W] x [H]. *)
Definition sized (W H : Z) (c : Ctx) : Prop :=
  canvasWidth c = W /\ canvasHeight c = H.

(** The background rectangle of a frame on the canvas of [c], painted with
    the given alpha and filter. *)
Definition backgroundOp (c : Ctx) (alpha : Q) (flt : string) : Op :=
  OpFillRect 0 0 (inject_Z (canvasWidth c)) (inject_Z (canvasHeight c))
    (CssColor "black") alpha flt.

Create HintDb timeline.
#[local] Hint Constructors Chain : timeline.

Ltac unfold_ms :=
  unfold scenesEnd, totalDurationMs, introMs, perImageMs, priceMs, outroMs in *.

(** * Part III: properties *)

(** ** The timeline *)

Lemma pushImageScenes_spec : forall r i c acc,
  pushImageScenes r i c acc
  = (acc ++ imageScenes r i c, c + Z.of_nat r * perImageMs).
Proof.
  induction r as [|r IH]; intros i c acc; cbn [pushImageScenes imageScenes].
  - rewrite app_nil_r. f_equal. lia.
  - rewrite IH, <- app_assoc. cbn [app]. f_equal. lia.
Qed.

Lemma buildScenes_eq : forall n,
  buildScenes n
  = mkScene Intro None 0 introMs
    :: imageScenes n 0 introMs
    ++ [mkScene Price None (introMs + Z.of_nat n * perImageMs)
          (introMs + Z.of_nat n * perImageMs + priceMs);
        mkScene Outro None (introMs + Z.of_nat n * perImageMs + priceMs)
          (scenesEnd n)].
Proof.
  intros n. unfold buildScenes, scenesEnd.
  rewrite pushImageScenes_spec. cbn [app].
  rewrite <- app_assoc. reflexivity.
Qed.

Lemma Chain_app : forall l1 l2 lo mid hi,
  Chain lo mid l1 -> Chain mid hi l2 -> Chain lo hi (l1 ++ l2).
Proof.
  induction l1 as [|s l1 IH]; intros l2 lo mid hi H1 H2.
  - inversion H1; subst. exact H2.
  - inversion H1; subst. cbn [app]. eauto with timeline.
Qed.

Lemma Chain_imageScenes : forall r i c,
  Chain c (c + Z.of_nat r * perImageMs) (imageScenes r i c).
Proof.
  induction r as [|r IH]; intros i c; cbn [imageScenes].
  - replace (c + Z.of_nat 0 * perImageMs) with c by lia. constructor.
  - replace (c + Z.of_nat (S r) * perImageMs)
      with ((c + perImageMs) + Z.of_nat r * perImageMs) by lia.
    apply (Chain_cons (mkScene Image (Some i) c (c + perImageMs))).
    + cbn [start end_]. unfold_ms. lia.
    + apply IH.
Qed.

Lemma Chain_buildScenes : forall n, Chain 0 (scenesEnd n) (buildScenes n).
Proof.
  intros n. rewrite buildScenes_eq.
  apply (Chain_cons (mkScene Intro None 0 introMs)); [cbn [start end_]; unfold_ms; lia|].
  cbn [end_].
  eapply Chain_app; [apply Chain_imageScenes|].
  set (p := introMs + Z.of_nat n * perImageMs).
  apply (Chain_cons (mkScene Price None p (p + priceMs)));
    [cbn [start end_]; unfold_ms; lia|].
  apply (Chain_cons (mkScene Outro None (p + priceMs) (scenesEnd n)));
    [cbn [start end_]; subst p; unfold_ms; lia|].
  constructor.
Qed.

(** *** Order facts about the lookup predicate *)

Lemma Qlt_bool_iff : forall x y : Q, Qlt_bool x y = true <-> (x < y)%Q.
Proof.
  intros x y. unfold Qlt_bool. rewrite negb_true_iff.
  split; intro H.
  - apply Qnot_le_lt. intro Hle. apply Qle_bool_iff in Hle. congruence.
  - destruct (Qle_bool y x) eqn:E; [|reflexivity].
    apply Qle_bool_iff in E. exfalso. exact (Qlt_not_le _ _ H E).
Qed.

Lemma inScene_iff : forall t s,
  inScene t s = true
  <-> (inject_Z (start s) <= t /\ t < inject_Z (end_ s))%Q.
Proof.
  intros t s. unfold inScene.
  rewrite andb_true_iff, Qle_bool_iff, Qlt_bool_iff. reflexivity.
Qed.

Lemma Chain_le : forall lo hi l, Chain lo hi l -> lo <= hi.
Proof. induction 1; lia. Qed.

Lemma Chain_bounds : forall lo hi l s,
  Chain lo hi l -> In s l -> lo <= start s /\ end_ s <= hi.
Proof.
  induction 1 as [lo|s0 l hi Hlt Hch IH]; intros Hin; [contradiction|].
  destruct Hin as [->|Hin].
  - apply Chain_le in Hch. lia.
  - destruct (IH Hin). lia.
Qed.

(** Inside the chained interval the lookup finds a scene, and that scene
    contains the time. *)
Lemma findScene_in_Chain : forall lo hi l t,
  Chain lo hi l ->
  (inject_Z lo <= t)%Q -> (t < inject_Z hi)%Q ->
  exists s, findScene t l = Some s /\ In s l /\ inScene t s = true.
Proof.
  unfold findScene.
  induction 1 as [lo|s l hi Hlt Hch IH]; intros Hlo Hhi.
  - exfalso. exact (Qlt_not_le _ _ Hhi Hlo).
  - cbn [find]. destruct (inScene t s) eqn:E.
    + exists s. cbn [In]. auto.
    + assert (Hge : (inject_Z (end_ s) <= t)%Q).
      { apply Qnot_lt_le. intro Hc.
        assert (inScene t s = true) by (apply inScene_iff; split; assumption).
        congruence. }
      destruct (IH Hge Hhi) as (s' & Hf & Hin & Hs').
      exists s'. cbn [In]. auto.
Qed.

(** Outside it (at or after the end, or before the start) no scene matches. *)
Lemma findScene_outside_Chain : forall lo hi l t,
  Chain lo hi l ->
  (inject_Z hi <= t \/ t < inject_Z lo)%Q ->
  findScene t l = None.
Proof.
  intros lo hi l t Hch Hout. unfold findScene.
  destruct (find (inScene t) l) as [s|] eqn:E; [|reflexivity].
  apply find_some in E. destruct E as [Hin Hs].
  apply inScene_iff in Hs. destruct Hs as [H1 H2].
  destruct (Chain_bounds _ _ _ _ Hch Hin) as [B1 B2].
  rewrite Zle_Qle in B1, B2.
  exfalso. destruct Hout as [Hout|Hout].
  - apply (Qlt_not_le _ _ H2). eapply Qle_trans; eassumption.
  - apply (Qlt_not_le _ _ Hout). eapply Qle_trans; eassumption.
Qed.

(** No two scenes of a chain contain the same instant. *)
Lemma Chain_disjoint : forall lo hi l t i j s1 s2,
  Chain lo hi l ->
  nth_error l i = Some s1 -> nth_error l j = Some s2 ->
  inScene t s1 = true -> inScene t s2 = true -> i = j.
Proof.
  intros lo hi l t i j s1 s2 Hch. revert i j.
  induction Hch as [lo|s l hi Hlt Hch IH]; intros i j Hi Hj H1 H2.
  - destruct i; discriminate.
  - assert (Hlater : forall k s', nth_error l k = Some s' ->
                       inScene t s = true -> inScene t s' = true -> False).
    { intros k s' Hk Hs Hs'. apply nth_error_In in Hk.
      destruct (Chain_bounds _ _ _ _ Hch Hk) as [B1 _].
      rewrite Zle_Qle in B1.
      apply inScene_iff in Hs, Hs'. destruct Hs as [_ Hs], Hs' as [Hs' _].
      apply (Qlt_not_le _ _ Hs). eapply Qle_trans; eassumption. }
    destruct i as [|i], j as [|j]; cbn [nth_error] in Hi, Hj.
    + reflexivity.
    + injection Hi as <-. exfalso. eauto.
    + injection Hj as <-. exfalso. eauto.
    + f_equal. eauto.
Qed.

Lemma In_nth_error_ex : forall (A : Type) (l : list A) (x : A),
  In x l -> exists i, nth_error l i = Some x.
Proof. intros A l x H. apply In_nth_error. exact H. Qed.

(** *** Kinds and asset indices of the built list *)





(** *** Total duration *)

Lemma totalDurationMs_max : forall b a,
  totalDurationMs b a = totalDurationMs (Nat.max b a) (Nat.max b a).
Proof.
  intros b a. unfold totalDurationMs. now rewrite Nat.max_id.
Qed.

Lemma totalDurationMs_lower : forall b a, introMs <= totalDurationMs b a.
Proof.
  intros b a. unfold totalDurationMs.
  destruct (Nat.eqb (Nat.max b a) 0); unfold_ms; lia.
Qed.


Lemma useMemoTotal_dep : forall cell b a, memoDep (useMemoTotal cell b a) = b.
Proof.
  intros cell b a. unfold useMemoTotal. destruct cell as [c|]; [|reflexivity].
  destruct (Nat.eqb (memoDep c) b) eqn:E; [|reflexivity].
  now apply Nat.eqb_eq.
Qed.

Lemma memoAfter_snoc : forall renders b a,
  memoAfter (renders ++ [(b, a)])
  = Some (useMemoTotal (memoAfter renders) b a).
Proof.
  intros renders b a. unfold memoAfter. now rewrite fold_left_app.
Qed.

Lemma useMemoTotal_same : forall c b a,
  memoDep c = b -> useMemoTotal (Some c) b a = c.
Proof.
  intros c b a H. unfold useMemoTotal. now rewrite H, Nat.eqb_refl.
Qed.


(** A render that sees the [bitmaps.length] of the render before it keeps
    the cell, whatever [assets.length] it sees. *)
Lemma memoAfter_keeps : forall renders b a a',
  memoAfter (renders ++ [(b, a); (b, a')]) = memoAfter (renders ++ [(b, a)]).
Proof.
  intros renders b a a'.
  change [(b, a); (b, a')] with ([(b, a)] ++ [(b, a')]).
  rewrite app_assoc, memoAfter_snoc.
  rewrite (memoAfter_snoc renders b a). f_equal.
  apply useMemoTotal_same, useMemoTotal_dep.
Qed.

(** C1, on the code.  The duration the engine holds is not a function of
    the asset count.  The [useMemo] callback computes the formula at
    [Math.max(bitmaps.length, assets.length)], but the value is memoised on
    [bitmaps.length] alone: a render that sees the same [bitmaps.length] as
    the one before keeps the old value, whatever [assets.length] has become.
    - Mounted with no asset, then three files dropped of which none decodes
      (renders (0,0), (0,3), (0,3)): the engine holds 1500 while the formula
      at three assets is 13700, and the timeline has no image scene.
    - Five files dropped of which two decode, then replaced by two files
      that both decode (renders (0,0), (0,5), (2,5), (2,2)): the engine
      holds 20100 while the formula at two assets is 10500, the end of the
      scene list, so that [drawFrame] throws at 10500 ms.
    - When the three files decode (renders (0,0), (0,3), (3,3)) the engine
      holds 13700 and the second image scene is [4700, 7900). *)
Theorem totalDurationMs_memo_goes_stale :
  (forall b a : nat,
     totalDurationMs b a
     = if Nat.eqb (Nat.max b a) 0 then 1500
       else 1500 + Z.of_nat (Nat.max b a) * 3200 + 1800 + 800)
  /\ (forall (renders : list (nat * nat)) (b a a' : nat),
        memoAfter (renders ++ [(b, a); (b, a')])
        = memoAfter (renders ++ [(b, a)]))
  /\ (option_map memoValue (memoAfter [(0, 0); (0, 3); (0, 3)]%nat)
      = Some 1500
      /\ totalDurationMs 0 3 = 13700
      /\ totalDurationMs 3 3 = 13700
      /\ filter isImage (buildScenes 0) = [])
  /\ (option_map memoValue (memoAfter [(0, 0); (0, 5); (2, 5); (2, 2)]%nat)
      = Some 20100
      /\ totalDurationMs 2 2 = 10500
      /\ scenesEnd 2 = 10500
      /\ fst (drawFrame specK
                (mkComposer (sampleProps modern 2) (sampleBitmaps 2) 5)
                10500 sampleCtx)
         = Throw "TypeError")
  /\ (option_map memoValue (memoAfter [(0, 0); (0, 3); (3, 3)]%nat)
      = Some 13700
      /\ nth_error (filter isImage (buildScenes 3)) 1
         = Some (mkScene Image (Some 1%nat) 4700 7900)).
Proof.
  split; [|split; [exact memoAfter_keeps|]].
  - intros b a. reflexivity.
  - repeat split; vm_compute; reflexivity.
Qed.





(** ** The clamp and the lookup *)

Lemma clampTime_le : forall t total,
  (clampTime t total <= inject_Z (total - 1))%Q.
Proof. intros. unfold clampTime. apply Q.le_min_r. Qed.


Lemma clampTime_glb : forall t total x,
  (x <= t)%Q -> (x <= inject_Z (total - 1))%Q -> (x <= clampTime t total)%Q.
Proof. intros. unfold clampTime. now apply Q.min_glb. Qed.

(** Below the bound the clamp returns its argument itself. *)
Lemma clampTime_below : forall t total,
  (t <= inject_Z (total - 1))%Q -> clampTime t total = t.
Proof.
  intros t total H. unfold clampTime, Qmin, GenericMinMax.gmin.
  destruct (t ?= inject_Z (total - 1))%Q eqn:E; try reflexivity.
  exfalso. rewrite <- Qgt_alt in E. exact (Qlt_not_le _ _ E H).
Qed.

(** Above it, it returns the bound itself. *)
Lemma clampTime_above : forall t total,
  (inject_Z (total - 1) < t)%Q -> clampTime t total = inject_Z (total - 1).
Proof.
  intros t total H. unfold clampTime, Qmin, GenericMinMax.gmin.
  rewrite Qgt_alt in H. now rewrite H.
Qed.

Lemma total_le_scenesEnd : forall b a,
  (a <= b)%nat -> totalDurationMs b a <= scenesEnd b.
Proof.
  intros b a H. unfold totalDurationMs. rewrite (Nat.max_l b a H).
  destruct (Nat.eqb b 0); unfold_ms; lia.
Qed.

Lemma total_gt_scenesEnd : forall b a,
  (b < a)%nat -> scenesEnd b + perImageMs <= totalDurationMs b a.
Proof.
  intros b a H. unfold totalDurationMs.
  rewrite (Nat.max_r b a) by lia.
  destruct (Nat.eqb a 0) eqn:E; [apply Nat.eqb_eq in E; lia|].
  unfold_ms. lia.
Qed.

(** With at least as many bitmaps as the memo counted assets, the clamped
    time of a non-negative timestamp lies in a scene, and the lookup returns
    the scene that contains it. *)
Lemma locateScene_some : forall cmp t,
  (0 <= t)%Q ->
  (memoAssetsLength cmp <= List.length (bitmaps cmp))%nat ->
  exists s,
    locateScene cmp t = Some s
    /\ In s (buildScenes (List.length (bitmaps cmp)))
    /\ inScene (clampTime t (totalOf cmp)) s = true.
Proof.
  intros cmp t Ht Hcount. unfold locateScene.
  apply findScene_in_Chain with (lo := 0) (hi := scenesEnd (List.length (bitmaps cmp))).
  - apply Chain_buildScenes.
  - apply clampTime_glb; [exact Ht|].
    rewrite <- Zle_Qle.
    pose proof (totalDurationMs_lower (List.length (bitmaps cmp))
                  (memoAssetsLength cmp)).
    unfold totalOf. unfold introMs in *. lia.
  - eapply Qle_lt_trans; [apply clampTime_le|].
    rewrite <- Zlt_Qlt.
    pose proof (total_le_scenesEnd _ _ Hcount). unfold totalOf. lia.
Qed.

(** With fewer bitmaps than the memo counted assets, every timestamp at or
    after the end of the last scene is left without a scene. *)
Lemma locateScene_none_late : forall cmp t,
  (List.length (bitmaps cmp) < memoAssetsLength cmp)%nat ->
  (inject_Z (scenesEnd (List.length (bitmaps cmp))) <= t)%Q ->
  (inject_Z (scenesEnd (List.length (bitmaps cmp)))
   <= clampTime t (totalOf cmp))%Q
  /\ locateScene cmp t = None.
Proof.
  intros cmp t Hcount Ht.
  assert (Hc : (inject_Z (scenesEnd (List.length (bitmaps cmp)))
                <= clampTime t (totalOf cmp))%Q).
  { apply clampTime_glb; [exact Ht|].
    rewrite <- Zle_Qle.
    pose proof (total_gt_scenesEnd _ _ Hcount). unfold totalOf.
    unfold perImageMs in *. lia. }
  split; [exact Hc|].
  unfold locateScene.
  eapply findScene_outside_Chain; [apply Chain_buildScenes|]. now left.
Qed.

(** A negative timestamp is left as it is, and no scene contains it. *)
Lemma locateScene_none_negative : forall cmp t,
  (t < 0)%Q -> clampTime t (totalOf cmp) = t /\ locateScene cmp t = None.
Proof.
  intros cmp t Ht.
  assert (Hc : clampTime t (totalOf cmp) = t).
  { apply clampTime_below. apply Qlt_le_weak.
    eapply Qlt_le_trans; [exact Ht|].
    change 0%Q with (inject_Z 0). rewrite <- Zle_Qle.
    pose proof (totalDurationMs_lower (List.length (bitmaps cmp))
                  (memoAssetsLength cmp)).
    unfold totalOf. unfold introMs in *. lia. }
  split; [exact Hc|].
  unfold locateScene. rewrite Hc.
  eapply findScene_outside_Chain; [apply Chain_buildScenes|]. now right.
Qed.

(** ** The decoded bitmaps *)

Lemma loadBitmapsLoop_length : forall decode fs imgs,
  (List.length imgs <= List.length (loadBitmapsLoop decode fs imgs)
   <= List.length imgs + List.length fs)%nat.
Proof.
  intros decode fs. induction fs as [|f fs IH]; intros imgs;
    cbn [loadBitmapsLoop List.length]; [lia|].
  destruct (negb (String.prefix "image/" (fileType f))).
  - specialize (IH imgs). lia.
  - destruct (decode f) as [bmp|].
    + specialize (IH (imgs ++ [bmp])). rewrite length_app in IH. cbn in IH.
      lia.
    + specialize (IH imgs). lia.
Qed.

(** The effect never yields more bitmaps than there are assets; a file that
    is not an image, or one that fails to decode, leaves it with fewer. *)
Lemma loadBitmaps_length : forall decode fs,
  (List.length (loadBitmaps decode fs) <= List.length fs)%nat.
Proof.
  intros decode fs. unfold loadBitmaps.
  pose proof (loadBitmapsLoop_length decode fs []). cbn in *. lia.
Qed.

Example loadBitmaps_skips_non_image :
  loadBitmaps (fun _ => Some (mkBitmap 1600 900 0))
    [mkFile "lamp.png" "image/png"; mkFile "notes.pdf" "application/pdf"]
  = [mkBitmap 1600 900 0].
Proof. reflexivity. Qed.

(** ** Drawing code that cannot throw *)

Lemma total_ret : forall (A : Type) (a : A), total_draw (ret a).
Proof. intros A a c. exists a, c. reflexivity. Qed.

Lemma total_get : forall (A : Type) (f : Ctx -> A), total_draw (get f).
Proof. intros A f c. exists (f c), c. reflexivity. Qed.

Lemma total_modify : forall f, total_draw (modify f).
Proof. intros f c. exists tt, (f c). reflexivity. Qed.

Lemma total_bind : forall (A B : Type) (m : Draw A) (k : A -> Draw B),
  total_draw m -> (forall a, total_draw (k a)) -> total_draw (bind m k).
Proof.
  intros A B m k Hm Hk c. unfold bind.
  destruct (Hm c) as (a & c' & ->). apply Hk.
Qed.

Lemma total_paintOp : forall o, total_draw (paintOp o).
Proof. intros o. apply total_modify. Qed.

Lemma total_fillRect : forall x y w h, total_draw (fillRect x y w h).
Proof. intros x y w h c. unfold fillRect. apply total_paintOp. Qed.

Lemma total_drawImage : forall b sx sy sw sh dx dy dw dh,
  total_draw (drawImage b sx sy sw sh dx dy dw dh).
Proof. intros until dh. intros c. unfold drawImage. apply total_paintOp. Qed.

Lemma total_fillText : forall s x y, total_draw (fillText s x y).
Proof. intros s x y c. unfold fillText. apply total_paintOp. Qed.

Lemma total_fill : total_draw fill.
Proof. intros c. unfold fill. apply total_paintOp. Qed.

Create HintDb draw.
#[local] Hint Resolve total_ret total_get total_modify total_paintOp
  total_fillRect total_drawImage total_fillText total_fill : draw.

Ltac total_step :=
  lazymatch goal with
  | |- total_draw (bind _ _) => apply total_bind; [|intros ?]
  | |- total_draw (match ?x with _ => _ end) => destruct x
  | |- total_draw _ => solve [auto with draw]
  end.

Ltac total_auto := cbv zeta; repeat total_step.

Section RendererTotal.

Variable K : KenBurns.

Lemma total_drawIntro : forall bmp title subtitle prog st,
  total_draw (drawIntro K bmp title subtitle prog st).
Proof.
  intros. unfold drawIntro, canvasW, canvasH, set_globalAlpha, set_fillStyle,
    set_textAlign, set_textBaseline, set_font.
  total_auto.
Qed.

Lemma total_drawImageScene : forall bmp caption index prog st,
  total_draw (drawImageScene K bmp caption index prog st).
Proof.
  intros. unfold drawImageScene, canvasW, canvasH, set_globalAlpha,
    set_fillStyle, set_textAlign, set_textBaseline, set_font.
  total_auto.
Qed.

Lemma total_roundRect : forall x y w h r, total_draw (roundRect x y w h r).
Proof. intros. unfold roundRect, beginPath, pathCmd. total_auto. Qed.

Lemma total_drawPrice : forall p c prog st,
  total_draw (drawPrice p c prog st).
Proof.
  intros. unfold drawPrice, canvasW, canvasH, set_globalAlpha, set_fillStyle,
    set_textAlign, set_textBaseline, set_font.
  pose proof total_roundRect.
  cbv zeta; repeat first [total_step | solve [auto]].
Qed.

Lemma total_drawVignette : total_draw drawVignette.
Proof.
  unfold drawVignette, canvasW, canvasH, set_fillStyle. total_auto.
Qed.

Lemma total_drawLetterbox : total_draw drawLetterbox.
Proof.
  unfold drawLetterbox, canvasW, canvasH, set_fillStyle. total_auto.
Qed.

Lemma total_drawBackground : total_draw drawBackground.
Proof.
  unfold drawBackground, canvasW, canvasH, clearRect, set_fillStyle.
  total_auto.
Qed.

Lemma total_drawScene : forall cmp scene prog,
  total_draw (drawScene K cmp scene prog).
Proof.
  intros. unfold drawScene. cbv zeta.
  destruct (kind scene).
  - apply total_drawIntro.
  - destruct (idx scene); apply total_drawImageScene.
  - apply total_drawPrice.
  - unfold canvasW, canvasH, set_fillStyle, set_globalAlpha. total_auto.
Qed.

Lemma total_renderScene : forall cmp t scene,
  total_draw (renderScene K cmp t scene).
Proof.
  intros. unfold renderScene, set_filter. cbv zeta.
  repeat (apply total_bind; [|intros ?]);
    auto using total_drawScene with draw.
  - destruct (negb _); auto using total_drawVignette with draw.
  - destruct (style_eqb _ _); auto using total_drawLetterbox with draw.
Qed.

(** [drawFrame] throws exactly when the lookup returns nothing, and then it
    throws the [TypeError] of line 86. *)
Lemma drawFrame_result : forall cmp t c,
  exists c',
    drawFrame K cmp t c
    = (match locateScene cmp t with
       | Some _ => Ok tt
       | None => Throw "TypeError"
       end, c').
Proof.
  intros cmp t c. unfold drawFrame, bind.
  destruct (total_drawBackground c) as ([] & c1 & ->).
  destruct (locateScene cmp t) as [scene|].
  - destruct (total_renderScene cmp t scene c1) as ([] & c2 & ->).
    now exists c2.
  - now exists c1.
Qed.

End RendererTotal.

(** ** The lookup inside [drawFrame] *)

Section Lookup.

Variable K : KenBurns.

(** When the lookup succeeds, [drawFrame] is the background followed by the
    rendering of the scene found. *)
Lemma drawFrame_located : forall cmp t scene c,
  locateScene cmp t = Some scene ->
  drawFrame K cmp t c = bind drawBackground (fun _ => renderScene K cmp t scene) c.
Proof.
  intros cmp t scene c H. unfold drawFrame. now rewrite H.
Qed.

(** C8.  For every timestamp [tMs >= 0] the lookup of [drawFrame] succeeds
    (the clamped time lies in the [start, end) interval of the scene found,
    and [drawFrame] returns normally) provided the bitmap count equals the
    asset count the total duration was computed with; with fewer bitmaps
    than that asset count there is a timestamp whose clamped time is at or
    past the end of the last scene, the lookup returns nothing and the
    non-null assertion lets [drawFrame] throw. *)
Theorem scene_lookup_sound_iff_counts_agree : forall cmp : Composer,
  let B := List.length (bitmaps cmp) in
  (B = memoAssetsLength cmp ->
   forall (tMs : Q) (c : Ctx),
     (0 <= tMs)%Q ->
     exists scene c',
       locateScene cmp tMs = Some scene
       /\ In scene (buildScenes B)
       /\ (inject_Z (start scene) <= clampTime tMs (totalOf cmp))%Q
       /\ (clampTime tMs (totalOf cmp) < inject_Z (end_ scene))%Q
       /\ drawFrame K cmp tMs c = (Ok tt, c'))
  /\ ((B < memoAssetsLength cmp)%nat ->
      exists tMs : Q,
        (0 <= tMs)%Q
        /\ (inject_Z (scenesEnd B) <= clampTime tMs (totalOf cmp))%Q
        /\ (forall scene, In scene (buildScenes B) ->
              (inject_Z (end_ scene) <= clampTime tMs (totalOf cmp))%Q)
        /\ locateScene cmp tMs = None
        /\ forall c, exists c', drawFrame K cmp tMs c = (Throw "TypeError", c')).
Proof.
  intros cmp B. split.
  - intros Hcount tMs c Ht.
    destruct (locateScene_some cmp tMs Ht) as (scene & Hloc & Hin & Hs).
    { fold B. lia. }
    apply inScene_iff in Hs. destruct Hs as [Hs1 Hs2].
    destruct (drawFrame_result K cmp tMs c) as [c' Hd]. rewrite Hloc in Hd.
    exists scene, c'. auto.
  - intros Hcount. exists (inject_Z (scenesEnd B)).
    destruct (locateScene_none_late cmp (inject_Z (scenesEnd B)) Hcount)
      as [Hc Hloc]; [apply Qle_refl|].
    split; [|split; [exact Hc|split; [|split; [exact Hloc|]]]].
    + change 0%Q with (inject_Z 0). rewrite <- Zle_Qle. unfold_ms. lia.
    + intros scene Hin.
      destruct (Chain_bounds _ _ _ _ (Chain_buildScenes B) Hin) as [_ Hb].
      rewrite Zle_Qle in Hb. eapply Qle_trans; eassumption.
    + intros c. destruct (drawFrame_result K cmp (inject_Z (scenesEnd B)) c)
        as [c' Hd].
      rewrite Hloc in Hd. now exists c'.
Qed.

(** C3, as amended.  [drawFrame] clamps from above only: for a timestamp
    [tMs >= 0] the time it uses is [Math.min(tMs, totalDurationMs - 1)], which
    lies in [0, totalDurationMs - 1] (it is [tMs] itself up to that bound and
    the bound beyond it), and, with at least as many bitmaps as the asset
    count the total duration was computed with, the frame rendered is the
    one of the scene that contains that time. *)
Theorem drawFrame_clamps_from_above : forall (cmp : Composer) (tMs : Q) (c : Ctx),
  (0 <= tMs)%Q ->
  (memoAssetsLength cmp <= List.length (bitmaps cmp))%nat ->
  let time := clampTime tMs (totalOf cmp) in
  (0 <= time)%Q
  /\ (time <= inject_Z (totalOf cmp - 1))%Q
  /\ ((tMs <= inject_Z (totalOf cmp - 1))%Q -> time = tMs)
  /\ ((inject_Z (totalOf cmp - 1) < tMs)%Q -> time = inject_Z (totalOf cmp - 1))
  /\ exists scene,
       In scene (buildScenes (List.length (bitmaps cmp)))
       /\ (inject_Z (start scene) <= time)%Q
       /\ (time < inject_Z (end_ scene))%Q
       /\ drawFrame K cmp tMs c
          = bind drawBackground (fun _ => renderScene K cmp tMs scene) c.
Proof.
  intros cmp tMs c Ht Hcount time. subst time.
  destruct (locateScene_some cmp tMs Ht Hcount) as (scene & Hloc & Hin & Hs).
  apply inScene_iff in Hs. destruct Hs as [Hs1 Hs2].
  split; [|split; [apply clampTime_le|split; [apply clampTime_below|
    split; [apply clampTime_above|]]]].
  - apply clampTime_glb; [exact Ht|].
    change 0%Q with (inject_Z 0). rewrite <- Zle_Qle.
    pose proof (totalDurationMs_lower (List.length (bitmaps cmp))
                  (memoAssetsLength cmp)).
    unfold totalOf. unfold introMs in *. lia.
  - exists scene. split; [exact Hin|]. split; [exact Hs1|].
    split; [exact Hs2|]. now apply drawFrame_located.
Qed.

End Lookup.

(** A run of [scene_lookup_sound_iff_counts_agree]: one decoded bitmap of one
    asset at 5000 ms, and one decoded bitmap of two assets. *)
Lemma scene_lookup_sound_iff_counts_agree_witness :
  (exists scene c',
     locateScene (sampleComposer modern 1 1) 5000 = Some scene
     /\ In scene (buildScenes 1)
     /\ (inject_Z (start scene)
         <= clampTime 5000 (totalOf (sampleComposer modern 1 1)))%Q
     /\ (clampTime 5000 (totalOf (sampleComposer modern 1 1))
         < inject_Z (end_ scene))%Q
     /\ drawFrame specK (sampleComposer modern 1 1) 5000 sampleCtx = (Ok tt, c'))
  /\ (exists tMs : Q,
        (0 <= tMs)%Q
        /\ (inject_Z (scenesEnd 1)
            <= clampTime tMs (totalOf (sampleComposer modern 1 2)))%Q
        /\ (forall scene, In scene (buildScenes 1) ->
              (inject_Z (end_ scene)
               <= clampTime tMs (totalOf (sampleComposer modern 1 2)))%Q)
        /\ locateScene (sampleComposer modern 1 2) tMs = None
        /\ forall c, exists c',
             drawFrame specK (sampleComposer modern 1 2) tMs c
             = (Throw "TypeError", c')).
Proof.
  split.
  - apply (proj1 (scene_lookup_sound_iff_counts_agree specK
                    (sampleComposer modern 1 1)));
      [reflexivity | vm_compute; discriminate].
  - apply (proj2 (scene_lookup_sound_iff_counts_agree specK
                    (sampleComposer modern 1 2))).
    vm_compute. lia.
Defined.

(** C3, counterexample.  A negative timestamp is not clamped into
    [0, totalDurationMs - 1]: at -1 the time used is -1, no scene contains it
    and [drawFrame] throws.  And a timestamp inside [0, totalDurationMs - 1]
    is left without a scene when a bitmap is missing: one bitmap of two
    assets, at 8000 ms. *)
Lemma drawFrame_negative_not_clamped :
  (clampTime (-1) (totalOf (sampleComposer modern 1 1)) = (-1)%Q
   /\ ~ (0 <= clampTime (-1) (totalOf (sampleComposer modern 1 1)))%Q
   /\ locateScene (sampleComposer modern 1 1) (-1) = None
   /\ fst (drawFrame specK (sampleComposer modern 1 1) (-1) sampleCtx)
      = Throw "TypeError")
  /\ (totalOf (sampleComposer modern 1 2) = 10500
      /\ clampTime 8000 (totalOf (sampleComposer modern 1 2)) = 8000%Q
      /\ locateScene (sampleComposer modern 1 2) 8000 = None
      /\ fst (drawFrame specK (sampleComposer modern 1 2) 8000 sampleCtx)
         = Throw "TypeError").
Proof.
  repeat split; try reflexivity.
  vm_compute. intro H. apply H. reflexivity.
Qed.

(** A run of [drawFrame_clamps_from_above] past the end of the timeline:
    20000 ms with one bitmap of one asset. *)
Lemma drawFrame_clamps_from_above_witness :
  let cmp := sampleComposer modern 1 1 in
  let time := clampTime 20000 (totalOf cmp) in
  (0 <= time)%Q
  /\ (time <= inject_Z (totalOf cmp - 1))%Q
  /\ ((20000 <= inject_Z (totalOf cmp - 1))%Q -> time = 20000%Q)
  /\ ((inject_Z (totalOf cmp - 1) < 20000)%Q -> time = inject_Z (totalOf cmp - 1))
  /\ exists scene,
       In scene (buildScenes (List.length (bitmaps cmp)))
       /\ (inject_Z (start scene) <= time)%Q
       /\ (time < inject_Z (end_ scene))%Q
       /\ drawFrame specK cmp 20000 sampleCtx
          = bind drawBackground (fun _ => renderScene specK cmp 20000 scene)
              sampleCtx.
Proof.
  apply (drawFrame_clamps_from_above specK (sampleComposer modern 1 1) 20000
           sampleCtx); [vm_compute; discriminate | vm_compute; lia].
Defined.

(** ** What the renderer paints *)

Lemma preserves_ret : forall (I : Ctx -> Prop) (A : Type) (a : A),
  preserves I (ret a).
Proof. intros I A a c H. exact H. Qed.

Lemma preserves_get : forall (I : Ctx -> Prop) (A : Type) (f : Ctx -> A),
  preserves I (get f).
Proof. intros I A f c H. exact H. Qed.

Lemma preserves_throw : forall (I : Ctx -> Prop) (A : Type) e,
  preserves I (@throw A e).
Proof. intros I A e c H. exact H. Qed.

Lemma preserves_bind : forall (I : Ctx -> Prop) (A B : Type)
  (m : Draw A) (k : A -> Draw B),
  preserves I m -> (forall a, preserves I (k a)) -> preserves I (bind m k).
Proof.
  intros I A B m k Hm Hk c Hc. unfold bind.
  specialize (Hm c Hc). destruct (m c) as [[a|e] c']; cbn in Hm |- *.
  - now apply Hk.
  - exact Hm.
Qed.

Section Rules.

Variable R : PaintRule.

Lemma ctxInv_paint : forall c o,
  ctxInv R c -> okOp R o = true ->
  ctxInv R (with_surface (surface c ++ [o]) c).
Proof.
  intros c o (Hp & Hf & Hs) Ho. repeat split; cbn; try assumption.
  rewrite forallb_app, Hs. cbn. now rewrite Ho.
Qed.

Lemma preserves_set_fillStyle : forall p,
  okPaint R p = true -> preserves (ctxInv R) (set_fillStyle p).
Proof. intros p Hp c (_ & Hf & Hs). repeat split; assumption. Qed.

Lemma preserves_set_filter : forall f,
  okFilter R f = true -> preserves (ctxInv R) (set_filter f).
Proof. intros f Hf c (Hp & _ & Hs). repeat split; assumption. Qed.

Lemma preserves_set_globalAlpha : forall v,
  preserves (ctxInv R) (set_globalAlpha v).
Proof.
  intros v c H. unfold set_globalAlpha, modify. cbn.
  destruct (Qle_bool 0 v && Qle_bool v 1); [|exact H].
  destruct H as (Hp & Hf & Hs). repeat split; assumption.
Qed.

Lemma preserves_set_font : forall f, preserves (ctxInv R) (set_font f).
Proof. intros f c (Hp & Hf & Hs). repeat split; assumption. Qed.

Lemma preserves_set_textAlign : forall a,
  preserves (ctxInv R) (set_textAlign a).
Proof. intros a c (Hp & Hf & Hs). repeat split; assumption. Qed.

Lemma preserves_set_textBaseline : forall b,
  preserves (ctxInv R) (set_textBaseline b).
Proof. intros b c (Hp & Hf & Hs). repeat split; assumption. Qed.

Lemma preserves_beginPath : preserves (ctxInv R) beginPath.
Proof. intros c (Hp & Hf & Hs). repeat split; assumption. Qed.

Lemma preserves_pathCmd : forall p, preserves (ctxInv R) (pathCmd p).
Proof. intros p c (Hp & Hf & Hs). repeat split; assumption. Qed.

Lemma preserves_fillRect : forall x y w h,
  preserves (ctxInv R) (fillRect x y w h).
Proof.
  intros x y w h c H. unfold fillRect, paintOp, modify. cbn.
  apply ctxInv_paint; [exact H|].
  destruct H as (Hp & Hf & _). unfold okOp. cbn. now rewrite Hp, Hf.
Qed.

Lemma preserves_fillText : forall s x y,
  preserves (ctxInv R) (fillText s x y).
Proof.
  intros s x y c H. unfold fillText, paintOp, modify. cbn.
  apply ctxInv_paint; [exact H|].
  destruct H as (Hp & Hf & _). unfold okOp. cbn. now rewrite Hp, Hf.
Qed.

Lemma preserves_fill : preserves (ctxInv R) fill.
Proof.
  intros c H. unfold fill, paintOp, modify. cbn.
  apply ctxInv_paint; [exact H|].
  destruct H as (Hp & Hf & _). unfold okOp. cbn. now rewrite Hp, Hf.
Qed.

Lemma preserves_drawImage : forall b sx sy sw sh dx dy dw dh,
  preserves (ctxInv R) (drawImage b sx sy sw sh dx dy dw dh).
Proof.
  intros until dh. intros c H. unfold drawImage, paintOp, modify. cbn.
  apply ctxInv_paint; [exact H|].
  destruct H as (_ & Hf & _). unfold okOp. cbn. exact Hf.
Qed.

Lemma preserves_clearRect : forall x y w h,
  preserves (ctxInv R) (clearRect x y w h).
Proof.
  intros x y w h c H. unfold clearRect, modify. cbn.
  destruct (_ && _).
  - destruct H as (Hp & Hf & _). repeat split; assumption.
  - apply ctxInv_paint; [exact H|reflexivity].
Qed.

(** The rule accepts the paints of the scenes. *)
Hypothesis R_scenes : forall p, scenePaint p = true -> okPaint R p = true.

Variable K : KenBurns.

Ltac rule_side := first [ assumption | apply R_scenes; reflexivity ].

Ltac preserve_step :=
  lazymatch goal with
  | |- preserves _ (bind _ _) => apply preserves_bind; [|intros ?]
  | |- preserves _ (match ?x with _ => _ end) => destruct x
  | |- preserves _ (ret _) => apply preserves_ret
  | |- preserves _ (get _) => apply preserves_get
  | |- preserves _ (set_fillStyle _) => apply preserves_set_fillStyle; rule_side
  | |- preserves _ (set_globalAlpha _) => apply preserves_set_globalAlpha
  | |- preserves _ (set_font _) => apply preserves_set_font
  | |- preserves _ (set_textAlign _) => apply preserves_set_textAlign
  | |- preserves _ (set_textBaseline _) => apply preserves_set_textBaseline
  | |- preserves _ beginPath => apply preserves_beginPath
  | |- preserves _ (pathCmd _) => apply preserves_pathCmd
  | |- preserves _ (fillRect _ _ _ _) => apply preserves_fillRect
  | |- preserves _ (fillText _ _ _) => apply preserves_fillText
  | |- preserves _ (drawImage _ _ _ _ _ _ _ _ _) => apply preserves_drawImage
  | |- preserves _ fill => apply preserves_fill
  | |- preserves _ (clearRect _ _ _ _) => apply preserves_clearRect
  end.

Ltac preserve_auto := cbv zeta; repeat preserve_step.

Lemma preserves_drawIntro : forall bmp title subtitle prog st,
  preserves (ctxInv R) (drawIntro K bmp title subtitle prog st).
Proof. intros. unfold drawIntro, canvasW, canvasH. preserve_auto. Qed.

Lemma preserves_drawImageScene : forall bmp caption index prog st,
  preserves (ctxInv R) (drawImageScene K bmp caption index prog st).
Proof. intros. unfold drawImageScene, canvasW, canvasH. preserve_auto. Qed.

Lemma preserves_roundRect : forall x y w h r,
  preserves (ctxInv R) (roundRect x y w h r).
Proof. intros. unfold roundRect. preserve_auto. Qed.

Lemma preserves_drawPrice : forall p c prog st,
  preserves (ctxInv R) (drawPrice p c prog st).
Proof.
  intros. unfold drawPrice, canvasW, canvasH. cbv zeta.
  repeat lazymatch goal with
         | |- preserves _ (roundRect _ _ _ _ _) => apply preserves_roundRect
         | |- _ => preserve_step
         end.
Qed.

Lemma preserves_drawScene : forall cmp scene prog,
  preserves (ctxInv R) (drawScene K cmp scene prog).
Proof.
  intros. unfold drawScene. cbv zeta. destruct (kind scene).
  - apply preserves_drawIntro.
  - destruct (idx scene); apply preserves_drawImageScene.
  - apply preserves_drawPrice.
  - unfold canvasW, canvasH. preserve_auto.
Qed.

End Rules.

(** Clearing the whole canvas empties the display list. *)
Lemma clearRect_canvas : forall c,
  clearRect 0 0 (inject_Z (canvasWidth c)) (inject_Z (canvasHeight c)) c
  = (Ok tt, with_surface [] c).
Proof.
  intros c. unfold clearRect, modify.
  assert (H : forall z : Z, Qle_bool (inject_Z z) (0 + inject_Z z) = true).
  { intros z. apply Qle_bool_iff. rewrite Qplus_0_l. apply Qle_refl. }
  now rewrite !H.
Qed.

(** The background: one black rectangle over the emptied display list,
    painted with the global alpha and the filter the context had on entry. *)
Lemma drawBackground_eq : forall c,
  drawBackground c
  = (Ok tt,
     with_surface
       [OpFillRect 0 0 (inject_Z (canvasWidth c)) (inject_Z (canvasHeight c))
          (CssColor "black") (globalAlpha c) (filterCss c)]
       (with_fillStyle (CssColor "black") c)).
Proof.
  intros c. unfold drawBackground, canvasW, canvasH, bind, get.
  rewrite clearRect_canvas. reflexivity.
Qed.

Lemma with_filter_id : forall c f, filterCss c = f -> with_filter f c = c.
Proof. intros [] f. cbn. now intros <-. Qed.

Lemma drawBackground_establishes : forall R c,
  okPaint R (CssColor "black") = true ->
  okFilter R (filterCss c) = true ->
  ctxInv R (snd (drawBackground c)).
Proof.
  intros R c Hp Hf. rewrite drawBackground_eq. cbn.
  repeat split; cbn; try assumption.
  unfold okOp. cbn. now rewrite Hp, Hf.
Qed.

Lemma ctxInv_ruleMinimal_plain : forall c,
  ctxInv ruleMinimal c ->
  filterCss c = "none"%string /\ forallb isPlain (surface c) = true.
Proof.
  intros c (_ & Hf & Hs). cbn in Hf. apply String.eqb_eq in Hf.
  split; [exact Hf|].
  rewrite forallb_forall in *. intros o Ho. specialize (Hs o Ho).
  unfold okOp in Hs. apply andb_true_iff in Hs. destruct Hs as [H1 H2].
  unfold isPlain, isVignette, isLetterboxBar, isGraded.
  destruct o; cbn in *; try reflexivity;
    unfold scenePaint in H1;
    try (apply andb_true_iff in H1; destruct H1 as [H1a H1b]);
    try rewrite H1a; try rewrite H1b; try rewrite H2; reflexivity.
Qed.

Lemma ctxInv_ruleNoBar_nobar : forall c,
  ctxInv ruleNoBar c -> existsb isLetterboxBar (surface c) = false.
Proof.
  intros c (_ & _ & Hs).
  destruct (existsb isLetterboxBar (surface c)) eqn:E; [|reflexivity].
  apply existsb_exists in E. destruct E as (o & Ho & Hbar).
  rewrite forallb_forall in Hs. specialize (Hs o Ho).
  unfold okOp in Hs. destruct o; cbn in *; try discriminate.
  rewrite Hbar in Hs. discriminate.
Qed.

(** ** Styles and post-processing *)

Section Styles.

Variable K : KenBurns.

Lemma scenePaint_minimal : forall p,
  scenePaint p = true -> okPaint ruleMinimal p = true.
Proof. intros p H. exact H. Qed.

Lemma scenePaint_noBar : forall p,
  scenePaint p = true -> okPaint ruleNoBar p = true.
Proof.
  intros p H. unfold scenePaint in H. apply andb_true_iff in H. apply H.
Qed.

Lemma preserves_drawVignette_noBar : preserves (ctxInv ruleNoBar) drawVignette.
Proof.
  unfold drawVignette, canvasW, canvasH. cbv zeta.
  repeat (apply preserves_bind; [|intros ?]);
    try apply preserves_get.
  - now apply preserves_set_fillStyle.
  - apply preserves_fillRect.
Qed.

(** With the minimal style the rendering of a scene paints nothing but the
    scene, through no filter. *)
Lemma preserves_renderScene_minimal : forall cmp t scene,
  style (props cmp) = minimal ->
  preserves (ctxInv ruleMinimal) (renderScene K cmp t scene).
Proof.
  intros cmp t scene Hst. unfold renderScene. rewrite Hst. cbn [style_eqb negb].
  cbv zeta.
  repeat (apply preserves_bind; [|intros ?]);
    try apply preserves_ret;
    try (apply preserves_set_filter; reflexivity).
  apply preserves_drawScene. exact scenePaint_minimal.
Qed.

(** With a style other than cinematic it paints no letterbox bar. *)
Lemma preserves_renderScene_noBar : forall cmp t scene,
  style (props cmp) <> cinematic ->
  preserves (ctxInv ruleNoBar) (renderScene K cmp t scene).
Proof.
  intros cmp t scene Hst. unfold renderScene. cbv zeta.
  assert (Hc : style_eqb (style (props cmp)) cinematic = false)
    by (destruct (style (props cmp)); [congruence|reflexivity|reflexivity]).
  rewrite Hc.
  repeat (apply preserves_bind; [|intros ?]);
    try apply preserves_ret;
    try (apply preserves_set_filter; reflexivity).
  - apply preserves_drawScene. exact scenePaint_noBar.
  - destruct (negb _); [apply preserves_drawVignette_noBar|apply preserves_ret].
Qed.

Lemma preserves_drawFrame_tail : forall (R : PaintRule) cmp t,
  (forall scene, preserves (ctxInv R) (renderScene K cmp t scene)) ->
  forall c,
    okPaint R (CssColor "black") = true ->
    okFilter R (filterCss c) = true ->
    ctxInv R (snd (drawFrame K cmp t c)).
Proof.
  intros R cmp t Hren c Hp Hf.
  pose proof (drawBackground_establishes R c Hp Hf) as Hbg.
  unfold drawFrame, bind.
  destruct (drawBackground c) as [[[]|e] c1]; cbn in Hbg |- *; [|exact Hbg].
  destruct (locateScene cmp t) as [scene|]; [|exact Hbg].
  now apply Hren.
Qed.

(** The letterbox paints two bars at the end of the display list. *)
Lemma drawLetterbox_bars : forall c,
  exists b1 b2 c',
    drawLetterbox c = (Ok tt, c')
    /\ surface c' = surface c ++ [b1; b2]
    /\ isLetterboxBar b1 = true /\ isLetterboxBar b2 = true.
Proof.
  intros c. unfold drawLetterbox, canvasW, canvasH. cbv zeta.
  eexists _, _, _. split; [reflexivity|]. cbn.
  rewrite <- app_assoc. split; [reflexivity|]. split; reflexivity.
Qed.

(** With the cinematic style a located scene is rendered with its bars. *)
Lemma renderScene_cinematic_bars : forall cmp t scene c,
  style (props cmp) = cinematic ->
  existsb isLetterboxBar (surface (snd (renderScene K cmp t scene c))) = true.
Proof.
  intros cmp t scene c Hst. unfold renderScene. rewrite Hst.
  cbn [style_eqb negb]. cbv zeta. unfold bind at 1. cbn [set_filter modify].
  unfold bind at 1.
  destruct (total_drawScene K cmp scene (sceneProgress cmp t scene)
              (with_filter colorGrade c)) as ([] & c1 & ->).
  unfold bind at 1.
  destruct (total_drawVignette c1) as ([] & c2 & ->).
  unfold bind at 1.
  destruct (drawLetterbox_bars c2) as (b1 & b2 & c3 & -> & Hs & H1 & _).
  cbn. rewrite Hs, existsb_app. cbn. rewrite H1.
  now rewrite orb_true_r.
Qed.

(** [drawFrame] leaves the filter as it found it when that was ["none"]:
    the filter is ["none"] at every entry of [drawFrame] on a context that
    started fresh. *)
Lemma drawFrame_filter_none : forall cmp t c,
  filterCss c = "none"%string ->
  filterCss (snd (drawFrame K cmp t c)) = "none"%string.
Proof.
  intros cmp t c Hf. unfold drawFrame, bind. rewrite drawBackground_eq.
  destruct (locateScene cmp t) as [scene|]; [|exact Hf].
  unfold renderScene, bind. cbv zeta. cbn [set_filter modify].
  match goal with |- context [drawScene K cmp scene ?p ?c0] =>
    destruct (total_drawScene K cmp scene p c0) as ([] & c1 & ->) end.
  destruct (negb (style_eqb (style (props cmp)) minimal)).
  - destruct (total_drawVignette c1) as ([] & c2 & ->).
    destruct (style_eqb (style (props cmp)) cinematic).
    + destruct (total_drawLetterbox c2) as ([] & c3 & ->). reflexivity.
    + reflexivity.
  - cbn [ret]. destruct (style_eqb (style (props cmp)) cinematic).
    + destruct (total_drawLetterbox c1) as ([] & c3 & ->). reflexivity.
    + reflexivity.
Qed.

(** C5.  When the style is minimal, [drawFrame] called on a context whose
    filter is ["none"] is exactly the unmodified per-scene draw, and nothing
    on the rendered frame is a vignette, a letterbox bar or painted through
    the colour-grade filter.  Every call finds the filter so: a fresh context
    has it, and [drawFrame] hands it back.  Whatever the inputs, a frame that
    holds a letterbox bar was rendered with the cinematic style; and with the
    cinematic style every frame whose scene is found holds the bars. *)
Theorem minimal_style_draws_scene_only :
  (forall W H : Z, filterCss (freshCtx W H) = "none"%string)
  /\ (forall (cmp : Composer) (tMs : Q) (c : Ctx),
        filterCss c = "none"%string ->
        filterCss (snd (drawFrame K cmp tMs c)) = "none"%string)
  /\ (forall (cmp : Composer) (tMs : Q) (c : Ctx),
     style (props cmp) = minimal ->
     filterCss c = "none"%string ->
     drawFrame K cmp tMs c = drawSceneOnly K cmp tMs c
     /\ forallb isPlain (surface (snd (drawFrame K cmp tMs c))) = true)
  /\ (forall (cmp : Composer) (tMs : Q) (c : Ctx),
        existsb isLetterboxBar (surface (snd (drawFrame K cmp tMs c))) = true ->
        style (props cmp) = cinematic)
  /\ (forall (cmp : Composer) (tMs : Q) (c : Ctx) (scene : Scene),
        style (props cmp) = cinematic ->
        locateScene cmp tMs = Some scene ->
        existsb isLetterboxBar (surface (snd (drawFrame K cmp tMs c))) = true).
Proof.
  split; [reflexivity|]. split; [exact drawFrame_filter_none|].
  split; [|split].
  - intros cmp tMs c Hst Hf. split.
    + unfold drawFrame, drawSceneOnly, bind.
      pose proof (drawBackground_establishes ruleMinimal c eq_refl) as Hbg.
      rewrite Hf in Hbg. specialize (Hbg eq_refl).
      destruct (drawBackground c) as [[[]|e] c1]; [|reflexivity].
      cbn in Hbg.
      destruct (locateScene cmp tMs) as [scene|]; [|reflexivity].
      unfold renderScene. rewrite Hst. cbn [style_eqb negb]. cbv zeta.
      unfold bind. cbn [set_filter modify ret].
      destruct (ctxInv_ruleMinimal_plain c1 Hbg) as [Hf1 _].
      rewrite (with_filter_id c1 "none" Hf1).
      pose proof (preserves_drawScene ruleMinimal scenePaint_minimal K cmp
                    scene (sceneProgress cmp tMs scene) c1 Hbg) as Hsc.
      destruct (drawScene K cmp scene (sceneProgress cmp tMs scene) c1)
        as [[[]|e] c2]; [|reflexivity].
      cbn in Hsc. destruct (ctxInv_ruleMinimal_plain c2 Hsc) as [Hf2 _].
      unfold set_filter, modify.
      now rewrite (with_filter_id c2 "none" Hf2).
    + apply ctxInv_ruleMinimal_plain.
      apply preserves_drawFrame_tail;
        [intros scene; now apply preserves_renderScene_minimal
        |reflexivity|now rewrite Hf].
  - intros cmp tMs c Hbar.
    destruct (style (props cmp)) eqn:Hst; [reflexivity| |]; exfalso.
    + assert (H : ctxInv ruleNoBar (snd (drawFrame K cmp tMs c))).
      { apply preserves_drawFrame_tail; [|reflexivity|reflexivity].
        intros scene. apply preserves_renderScene_noBar. congruence. }
      apply ctxInv_ruleNoBar_nobar in H. congruence.
    + assert (H : ctxInv ruleNoBar (snd (drawFrame K cmp tMs c))).
      { apply preserves_drawFrame_tail; [|reflexivity|reflexivity].
        intros scene. apply preserves_renderScene_noBar. congruence. }
      apply ctxInv_ruleNoBar_nobar in H. congruence.
  - intros cmp tMs c scene Hst Hloc.
    unfold drawFrame, bind. rewrite drawBackground_eq, Hloc.
    now apply renderScene_cinematic_bars.
Qed.

(** C4, on the code.  Two calls of [drawFrame] with the same timestamp, the
    same bitmaps, the same copy and the same style do not paint the same
    frame: [drawPrice] leaves the context's global alpha at its fade value
    (it never sets it back to 1, as [drawIntro] and the outro branch do), and
    the next call paints its background with that alpha.
    - At the first instant of the price scene (4700 ms), called twice in a
      row: the first call paints its background opaque and leaves the global
      alpha at 0; the second paints everything, background included, with
      alpha 0.
    - At 4800 ms, called after a frame at 4750 ms and after a frame at
      4790 ms: the background is painted with alpha 1/24 in one and 3/40 in
      the other. *)
Theorem drawFrame_price_leaks_globalAlpha :
  let cmp := sampleComposer modern 1 1 in
  let first := drawFrame K cmp 4700 sampleCtx in
  let second := drawFrame K cmp 4700 (snd first) in
  let after4750 := drawFrame K cmp 4800 (snd (drawFrame K cmp 4750 sampleCtx)) in
  let after4790 := drawFrame K cmp 4800 (snd (drawFrame K cmp 4790 sampleCtx)) in
  (fst first = Ok tt
   /\ fst second = Ok tt
   /\ backgroundAlpha (surface (snd first)) = Some 1%Q
   /\ (globalAlpha (snd first) == 0)%Q
   /\ backgroundAlpha (surface (snd second)) = Some 0%Q
   /\ forallb (fun o => match op_alpha o with
                        | Some a => Qeq_bool a 0
                        | None => true
                        end) (surface (snd second)) = true
   /\ surface (snd first) <> surface (snd second))
  /\ (fst after4750 = Ok tt
      /\ fst after4790 = Ok tt
      /\ backgroundAlpha (surface (snd after4750)) = Some (1 # 24)%Q
      /\ backgroundAlpha (surface (snd after4790)) = Some (3 # 40)%Q
      /\ surface (snd after4750) <> surface (snd after4790)).
Proof.
  cbv zeta. repeat split; try (vm_compute; reflexivity);
    vm_compute; discriminate.
Qed.

End Styles.

(** A run of [minimal_style_draws_scene_only]: the minimal style inside the
    first image scene, and the cinematic style at the same instant. *)
Lemma minimal_style_draws_scene_only_witness :
  (drawFrame specK (sampleComposer minimal 1 1) 2000 sampleCtx
   = drawSceneOnly specK (sampleComposer minimal 1 1) 2000 sampleCtx
   /\ forallb isPlain
        (surface (snd (drawFrame specK (sampleComposer minimal 1 1) 2000
                         sampleCtx))) = true)
  /\ existsb isLetterboxBar
       (surface (snd (drawFrame specK (sampleComposer cinematic 1 1) 2000
                        sampleCtx))) = true.
Proof.
  destruct (minimal_style_draws_scene_only specK) as (_ & _ & Hmin & _ & Hcin).
  split.
  - apply Hmin; reflexivity.
  - apply (Hcin (sampleComposer cinematic 1 1) 2000%Q sampleCtx
             (mkScene Image (Some 0%nat) 1500 4700)); reflexivity.
Defined.

(** ** The frame-stepped loop *)

Section CaptureLoop.

Variable K : KenBurns.

Lemma totalOf_pos : forall cmp, 0 <= totalOf cmp - 1.
Proof.
  intros cmp.
  pose proof (totalDurationMs_lower (List.length (bitmaps cmp))
                (memoAssetsLength cmp)).
  unfold totalOf. unfold introMs in *. lia.
Qed.

(** A frame of the loop is drawn without an exception when no bitmap is
    missing and the clock has not gone back. *)
Lemma drawFrame_clamped_ok : forall cmp start now c,
  (memoAssetsLength cmp <= List.length (bitmaps cmp))%nat ->
  (start <= now)%Q ->
  exists c',
    drawFrame K cmp (clampedElapsed start (totalOf cmp) now) c = (Ok tt, c').
Proof.
  intros cmp start now c Hcount Hnow.
  destruct (drawFrame_result K cmp (clampedElapsed start (totalOf cmp) now) c)
    as [c' Hd].
  destruct (locateScene_some cmp (clampedElapsed start (totalOf cmp) now))
    as (scene & Hloc & _); [|exact Hcount|].
  - unfold clampedElapsed. apply Q.min_glb.
    + rewrite <- (Qplus_opp_r start). apply Qplus_le_l. exact Hnow.
    + change 0%Q with (inject_Z 0). rewrite <- Zle_Qle. apply totalOf_pos.
  - rewrite Hloc in Hd. now exists c'.
Qed.

(** The loop up to the first reading whose elapsed time reaches the
    duration: one frame per reading, the last one at [duration - 1], and
    nothing of the readings after it. *)
Lemma stepLoop_done : forall cmp start before reach after c,
  (memoAssetsLength cmp <= List.length (bitmaps cmp))%nat ->
  Forall (fun now => (start <= now)%Q) before ->
  Forall (fun now => (now - start < inject_Z (totalOf cmp))%Q) before ->
  (inject_Z (totalOf cmp) <= reach - start)%Q ->
  exists c',
    stepLoop K cmp start (totalOf cmp) (before ++ reach :: after) c
    = (LoopDone,
       map EvFrame (map (clampedElapsed start (totalOf cmp)) before)
       ++ [EvFrame (inject_Z (totalOf cmp - 1))],
       c').
Proof.
  intros cmp start before reach after c Hcount Hge Hlt Hreach.
  revert c. induction before as [|now before IH]; intros c.
  - cbn [app map stepLoop].
    assert (Hstart : (start <= reach)%Q).
    { assert (H0 : (0 <= inject_Z (totalOf cmp))%Q).
      { change 0%Q with (inject_Z 0). rewrite <- Zle_Qle.
        pose proof (totalOf_pos cmp). lia. }
      lra. }
    destruct (drawFrame_clamped_ok cmp start reach c Hcount Hstart)
      as [c' Hd].
    unfold clampedElapsed in Hd. rewrite Hd.
    assert (Hb : Qlt_bool (reach - start) (inject_Z (totalOf cmp)) = false).
    { destruct (Qlt_bool _ _) eqn:E; [|reflexivity].
      apply Qlt_bool_iff in E. exfalso. exact (Qlt_not_le _ _ E Hreach). }
    rewrite Hb. exists c'. f_equal. f_equal. f_equal. f_equal.
    apply (clampTime_above (reach - start) (totalOf cmp)).
    eapply Qlt_le_trans; [|exact Hreach].
    rewrite <- Zlt_Qlt. lia.
  - inversion Hge as [|? ? Hnow Hge']; subst.
    inversion Hlt as [|? ? Hnowlt Hlt']; subst.
    cbn [app map stepLoop].
    destruct (drawFrame_clamped_ok cmp start now c Hcount Hnow) as [c1 Hd].
    unfold clampedElapsed in Hd. rewrite Hd.
    apply Qlt_bool_iff in Hnowlt. rewrite Hnowlt.
    destruct (IH Hge' Hlt' c1) as [c' ->].
    exists c'. reflexivity.
Qed.

(** While no reading has reached the duration the loop is waiting. *)
Lemma stepLoop_waiting : forall cmp start nows c,
  (memoAssetsLength cmp <= List.length (bitmaps cmp))%nat ->
  Forall (fun now => (start <= now)%Q) nows ->
  Forall (fun now => (now - start < inject_Z (totalOf cmp))%Q) nows ->
  exists c',
    stepLoop K cmp start (totalOf cmp) nows c
    = (LoopWaiting,
       map EvFrame (map (clampedElapsed start (totalOf cmp)) nows), c').
Proof.
  intros cmp start nows c Hcount Hge Hlt. revert c.
  induction nows as [|now nows IH]; intros c.
  - exists c. reflexivity.
  - inversion Hge as [|? ? Hnow Hge']; subst.
    inversion Hlt as [|? ? Hnowlt Hlt']; subst.
    cbn [map stepLoop].
    destruct (drawFrame_clamped_ok cmp start now c Hcount Hnow) as [c1 Hd].
    unfold clampedElapsed in Hd. rewrite Hd.
    apply Qlt_bool_iff in Hnowlt. rewrite Hnowlt.
    destruct (IH Hge' Hlt' c1) as [c' ->].
    exists c'. reflexivity.
Qed.

Lemma clampedElapsed_mono : forall start d x y,
  (x <= y)%Q -> (clampedElapsed start d x <= clampedElapsed start d y)%Q.
Proof.
  intros start d x y H. unfold clampedElapsed.
  apply Q.min_le_compat_r. now apply Qplus_le_l.
Qed.

Lemma clampedElapsed_strict : forall start d x y,
  (x < y)%Q ->
  (clampedElapsed start d x < inject_Z (d - 1))%Q ->
  (clampedElapsed start d x < clampedElapsed start d y)%Q.
Proof.
  intros start d x y H Hcap. unfold clampedElapsed in *.
  apply Q.min_glb_lt; [|exact Hcap].
  eapply Qle_lt_trans; [apply Q.le_min_l|].
  now apply Qplus_lt_l.
Qed.

(** On a strictly increasing clock the rendered times never go back, and
    they go strictly forward until the clamp value is reached. *)
Lemma risesTo_clamped : forall start d nows,
  StronglySorted Qlt nows ->
  risesTo (inject_Z (d - 1)) (map (clampedElapsed start d) nows).
Proof.
  intros start d nows H. induction H as [|now nows Hs IH Hall]; [exact I|].
  cbn [map risesTo]. split; [|exact IH].
  destruct nows as [|next nows]; [exact I|]. cbn [map].
  inversion Hall as [|? ? Hlt _]; subst. split.
  - apply clampedElapsed_mono. now apply Qlt_le_weak.
  - now apply clampedElapsed_strict.
Qed.

Lemma risesTo_app_cap : forall cap l,
  risesTo cap l -> Forall (fun x => (x <= cap)%Q) l -> risesTo cap (l ++ [cap]).
Proof.
  intros cap l. induction l as [|x l IH]; intros Hr Hall; [cbn; auto|].
  inversion Hall as [|? ? Hx Hall']; subst.
  destruct Hr as [Hadj Hr]. cbn [app risesTo]. split; [|now apply IH].
  destruct l as [|y l]; cbn [app].
  - split; [exact Hx|]. intros H. exact H.
  - exact Hadj.
Qed.

(** C7, as amended.  Within one capture whose recorder was constructed, with
    no bitmap missing and a clock that strictly increases from the start
    reading: the loop renders one frame per callback, at clamped times that
    never decrease and strictly increase until the clamp value
    [totalDurationMs - 1] is reached; on the first callback whose elapsed
    time reaches [totalDurationMs] the renderer is invoked with
    [totalDurationMs - 1], no later callback renders anything, and only then
    is the encoder stopped and the capture resolved. *)
Theorem capture_renders_final_frame_then_stops :
  forall (h : Host) (cmp : Composer) (start : Q)
         (before : list Q) (reach : Q) (after : list Q) (c : Ctx),
  (memoAssetsLength cmp <= List.length (bitmaps cmp))%nat ->
  newMediaRecorder h (selectMimeType h) = Ok tt ->
  Forall (fun now => (start <= now)%Q) before ->
  StronglySorted Qlt (before ++ [reach]) ->
  Forall (fun now => (now - start < inject_Z (totalOf cmp))%Q) before ->
  (inject_Z (totalOf cmp) <= reach - start)%Q ->
  let final := inject_Z (totalOf cmp - 1) in
  let frames := map (clampedElapsed start (totalOf cmp)) before in
  (exists c',
     startRecording K h cmp start (before ++ reach :: after) c
     = (Resolved (selectMimeType h),
        captureOpening h cmp
        ++ (map EvFrame frames ++ [EvFrame final])
        ++ captureClosing cmp,
        c'))
  /\ hd_error (captureClosing cmp) = Some EvRecorderStop
  /\ ~ In EvRecorderStop (captureOpening h cmp ++ map EvFrame frames)
  /\ risesTo final (frames ++ [final])
  /\ Forall (fun x => (0 <= x)%Q /\ (x <= final)%Q) (frames ++ [final]).
Proof.
  intros h cmp start before reach after c Hcount Hrec Hge Hsort Hlt Hreach
    final frames.
  split; [|split; [reflexivity|split; [|split]]].
  - unfold startRecording.
    destruct (drawFrame_clamped_ok cmp 0 0 c Hcount (Qle_refl 0)) as [c1 Hd].
    replace (clampedElapsed 0 (totalOf cmp) 0) with 0%Q in Hd.
    2:{ symmetry. apply (clampTime_below (0 - 0) (totalOf cmp)).
        change (0 - 0)%Q with (inject_Z 0). rewrite <- Zle_Qle.
        apply totalOf_pos. }
    rewrite Hd, Hrec. cbv zeta.
    destruct (stepLoop_done cmp start before reach after c1 Hcount Hge Hlt
                Hreach) as [c' ->].
    now exists c'.
  - intros Hin. apply in_app_or in Hin. destruct Hin as [Hin|Hin].
    + unfold captureOpening in Hin. apply in_app_or in Hin.
      destruct Hin as [Hin|Hin].
      * cbn in Hin. intuition discriminate.
      * destruct (hasAudio cmp); cbn in Hin; intuition discriminate.
    + apply in_map_iff in Hin. destruct Hin as (x & Hx & _). discriminate.
  - subst frames final. apply risesTo_app_cap.
    + apply risesTo_clamped.
      assert (H := Hsort).
      clear - H. induction before as [|x l IH]; [constructor|].
      cbn [app] in H. apply StronglySorted_inv in H. destruct H as [H1 H2].
      constructor; [now apply IH|].
      apply Forall_app in H2. apply H2.
    + apply Forall_forall. intros x Hx. apply in_map_iff in Hx.
      destruct Hx as (now & <- & _). unfold clampedElapsed. apply Q.le_min_r.
  - subst frames final. apply Forall_app. split.
    + apply Forall_forall. intros x Hx. apply in_map_iff in Hx.
      destruct Hx as (now & <- & Hnow).
      rewrite Forall_forall in Hge. specialize (Hge now Hnow).
      unfold clampedElapsed. split; [|apply Q.le_min_r].
      apply Q.min_glb.
      * rewrite <- (Qplus_opp_r start). now apply Qplus_le_l.
      * change 0%Q with (inject_Z 0). rewrite <- Zle_Qle. apply totalOf_pos.
    + constructor; [|constructor]. split; [|apply Qle_refl].
      change 0%Q with (inject_Z 0). rewrite <- Zle_Qle. apply totalOf_pos.
Qed.

End CaptureLoop.

(** A run of [capture_renders_final_frame_then_stops]: one bitmap of one
    asset (7300 ms), the clock started at 1000 ms, callbacks at 16.7 ms,
    7299.5 ms, 7316.2 ms and 7332.9 ms after it. *)
Lemma capture_renders_final_frame_then_stops_witness :
  exists c',
    startRecording specK hostAll (sampleComposer modern 1 1) 1000
      [1016.7; 8299.5; 8316.2; 8332.9]%Q sampleCtx
    = (Resolved "video/webm;codecs=vp9,opus",
       [ EvFrame 0; EvNewRecorder "video/webm;codecs=vp9,opus" false;
         EvRecorderStart;
         EvFrame 16.7; EvFrame 7299; EvFrame 7299;
         EvRecorderStop ],
       c').
Proof.
  destruct (capture_renders_final_frame_then_stops specK hostAll
              (sampleComposer modern 1 1) 1000%Q [1016.7; 8299.5]%Q 8316.2%Q
              [8332.9%Q] sampleCtx) as [[c' H] _].
  - vm_compute. lia.
  - reflexivity.
  - repeat constructor; vm_compute; discriminate.
  - repeat constructor; reflexivity.
  - repeat constructor; reflexivity.
  - vm_compute. discriminate.
  - exists c'. exact H.
Defined.

(** C7, counterexample.  On a strictly increasing clock the loop renders the
    time [totalDurationMs - 1] twice: a callback 7299.5 ms after the start
    is clamped to 7299 and does not end the loop, and the next one, past
    7300 ms, is clamped to 7299 again.  And with one bitmap of two assets
    the final in-range frame is never rendered: the callback 7300 ms after
    the start finds no scene, [drawFrame] throws inside it, no further
    callback is scheduled and the encoder is never stopped. *)
Lemma capture_repeats_final_timestamp :
  (let r := startRecording specK hostAll (sampleComposer modern 1 1) 1000
              [1016.7; 8299.5; 8316.2]%Q sampleCtx in
   fst (fst r) = Resolved "video/webm;codecs=vp9,opus"
   /\ frameTimes (snd (fst r)) = [0; 16.7; 7299; 7299]%Q
   /\ ~ StronglySorted Qlt (frameTimes (snd (fst r))))
  /\ (let r := startRecording specK hostAll (sampleComposer modern 1 2) 1000
                 [1016.7; 8300; 12000]%Q sampleCtx in
      totalOf (sampleComposer modern 1 2) = 10500
      /\ fst (fst r) = Stalled "TypeError"
      /\ frameTimes (snd (fst r)) = [0; 16.7]%Q
      /\ existsb (fun e => match e with EvRecorderStop => true | _ => false end)
           (snd (fst r)) = false).
Proof.
  cbv zeta. split; [split; [|split]|repeat split]; try reflexivity.
  assert (E : frameTimes
                (snd (fst (startRecording specK hostAll
                             (sampleComposer modern 1 1) 1000
                             [1016.7; 8299.5; 8316.2]%Q sampleCtx)))
              = [0; 16.7; 7299; 7299]%Q) by reflexivity.
  rewrite E. intro H.
  apply StronglySorted_inv in H. destruct H as [H _].
  apply StronglySorted_inv in H. destruct H as [H _].
  apply StronglySorted_inv in H. destruct H as [_ H].
  inversion H as [|? ? Hlt _]; subst. vm_compute in Hlt. discriminate.
Qed.

(** ** The encoding *)

Lemma selectLoop_some : forall h ms m,
  selectLoop h ms = Some m ->
  exists i,
    nth_error ms i = Some m
    /\ hostSupports h m = true
    /\ forallb (fun m' => negb (hostSupports h m')) (firstn i ms) = true.
Proof.
  intros h ms m. induction ms as [|m0 ms IH]; cbn [selectLoop]; [discriminate|].
  destruct (hostSupports h m0) eqn:E.
  - intros [= <-]. exists 0%nat. auto.
  - intros H. destruct (IH H) as (i & Hi & Hm & Hbefore).
    exists (S i). cbn. rewrite E. auto.
Qed.

Lemma selectLoop_none : forall h ms,
  selectLoop h ms = None ->
  forallb (fun m' => negb (hostSupports h m')) ms = true.
Proof.
  intros h ms. induction ms as [|m0 ms IH]; cbn; [reflexivity|].
  destruct (hostSupports h m0); [discriminate|]. exact IH.
Qed.


Section Encoding.

Variable K : KenBurns.

(** The priming frame at 0 always finds the intro scene. *)
Lemma locateScene_zero : forall cmp,
  locateScene cmp 0 = Some (mkScene Intro None 0 introMs).
Proof.
  intros cmp. unfold locateScene.
  rewrite (clampTime_below 0 (totalOf cmp)).
  - rewrite buildScenes_eq. reflexivity.
  - change 0%Q with (inject_Z 0). rewrite <- Zle_Qle. apply totalOf_pos.
Qed.

(** How a capture ends, by the host: it is rejected exactly when the host
    does not support the selected type, before any recorder exists. *)
Lemma startRecording_outcome : forall h cmp start nows c,
  match fst (fst (startRecording K h cmp start nows c)) with
  | Rejected e =>
      hostSupports h (selectMimeType h) = false
      /\ newMediaRecorder h (selectMimeType h) = Throw e
      /\ snd (fst (startRecording K h cmp start nows c)) = [EvFrame 0]
  | Resolved ty => ty = selectMimeType h /\ hostSupports h ty = true
  | Stalled _ | Pending => hostSupports h (selectMimeType h) = true
  end.
Proof.
  intros h cmp start nows c. unfold startRecording.
  destruct (drawFrame_result K cmp 0 c) as [c1 Hd].
  rewrite locateScene_zero in Hd. rewrite Hd.
  unfold newMediaRecorder, hostSupports.
  destruct (mediaRecorder h) as [sup|]; cbn.
  - destruct (sup (selectMimeType h)) eqn:E; cbn; [|auto].
    destruct (stepLoop K cmp start (totalOf cmp) nows c1) as [[[]] ?];
      cbn; auto.
  - auto.
Qed.

(** The selected type is unsupported exactly when the host supports no
    entry of the list. *)
Lemma selected_unsupported_iff : forall h,
  hostSupports h (selectMimeType h) = false
  <-> forallb (fun m' => negb (hostSupports h m')) cand = true.
Proof.
  intros h. unfold selectMimeType.
  destruct (selectLoop h cand) as [m|] eqn:E.
  - pose proof E as E'. apply selectLoop_some in E.
    destruct E as (i & Hi & Hm & _). split; [congruence|].
    intros Hall. apply nth_error_In in Hi.
    rewrite forallb_forall in Hall. specialize (Hall m Hi).
    rewrite Hm in Hall. discriminate.
  - apply selectLoop_none in E. split; [intros _; exact E|]. intros _.
    cbn in E. rewrite !andb_true_iff in E.
    destruct E as (_ & _ & E & _). now apply negb_true_iff in E.
Qed.

(** C6, on the code.  [selectMimeType] scans the fixed ordered preference
    list and returns the first entry the host reports as supported, and the
    final fallback entry ["video/webm"] when no entry is supported (its test
    [window.MediaRecorder && ...] also covers a host without the class).
    But the capture does not resolve then: [new MediaRecorder] is called
    with the returned type, unguarded and outside any [try], so on a host
    that supports no entry the promise of [startRecording] is rejected
    right after the priming frame, before any recorder exists: with a
    ReferenceError on a host without the class, with a NotSupportedError
    otherwise.  A capture is rejected on no other host. *)
Theorem capture_rejected_when_no_type_supported : forall h : Host,
  let noneSupported :=
    forallb (fun m' => negb (hostSupports h m')) cand = true in
  ((exists i,
      nth_error cand i = Some (selectMimeType h)
      /\ hostSupports h (selectMimeType h) = true
      /\ forallb (fun m' => negb (hostSupports h m')) (firstn i cand) = true)
   \/ (noneSupported
       /\ selectMimeType h = "video/webm"%string
       /\ hostSupports h (selectMimeType h) = false))
  /\ forall (cmp : Composer) (start : Q) (nows : list Q) (c : Ctx),
       (noneSupported ->
        fst (startRecording K h cmp start nows c)
        = (Rejected (match mediaRecorder h with
                     | None => "ReferenceError"
                     | Some _ => "NotSupportedError"
                     end), [EvFrame 0]))
       /\ ((exists e,
              fst (fst (startRecording K h cmp start nows c)) = Rejected e)
           <-> noneSupported).
Proof.
  intros h noneSupported. subst noneSupported. split.
  - unfold selectMimeType. destruct (selectLoop h cand) as [m|] eqn:E.
    + left. apply selectLoop_some in E. exact E.
    + right. apply selectLoop_none in E. split; [exact E|].
      split; [reflexivity|].
      cbn in E. rewrite !andb_true_iff in E.
      destruct E as (_ & _ & E & _). now apply negb_true_iff in E.
  - intros cmp start nows c. split.
    + intros Hnone. apply selected_unsupported_iff in Hnone.
      unfold startRecording.
      destruct (drawFrame_result K cmp 0 c) as [c1 Hd].
      rewrite locateScene_zero in Hd. rewrite Hd.
      unfold newMediaRecorder. unfold hostSupports in Hnone.
      destruct (mediaRecorder h) as [sup|]; [|reflexivity].
      now rewrite Hnone.
    + rewrite <- selected_unsupported_iff.
      pose proof (startRecording_outcome h cmp start nows c) as H.
      split.
      * intros [e He]. rewrite He in H. apply H.
      * intros Hun.
        destruct (fst (fst (startRecording K h cmp start nows c)))
          as [ty|e|e|]; try congruence.
        -- destruct H as [-> H]. congruence.
        -- now exists e.
Qed.


End Encoding.

(** A run of [capture_rejected_when_no_type_supported]: a host without
    [MediaRecorder] and a host whose [MediaRecorder] supports no entry, each
    asked to capture one bitmap of one asset. *)
Lemma capture_rejected_when_no_type_supported_witness :
  selectMimeType hostNoRecorder = "video/webm"%string
  /\ fst (startRecording specK hostNoRecorder (sampleComposer modern 1 1) 1000
            [1016.7; 8316.2]%Q sampleCtx)
     = (Rejected "ReferenceError", [EvFrame 0])
  /\ fst (startRecording specK hostNoWebm (sampleComposer modern 1 1) 1000
            [1016.7; 8316.2]%Q sampleCtx)
     = (Rejected "NotSupportedError", [EvFrame 0]).
Proof.
  split; [reflexivity|]. split.
  - apply (capture_rejected_when_no_type_supported specK hostNoRecorder).
    reflexivity.
  - apply (capture_rejected_when_no_type_supported specK hostNoWebm).
    reflexivity.
Defined.

(** ** The dropzone *)

(** C10.  Neither handler of the dropzone calls [onFiles] with an empty
    list: for every change or drop event [onFiles] is called (once) exactly
    when at least one file is present; with [multiple = false] its argument
    is the one-element list of the first file, and with [multiple = true]
    the whole list. *)
Theorem dropzone_never_delivers_empty :
  forall (multiple : bool) (eventFiles : option (list File)),
  let files := filesOrEmpty eventFiles in
  onFilesCalls (onDrop multiple eventFiles) = onInputChange multiple eventFiles
  /\ ~ In [] (onInputChange multiple eventFiles)
  /\ List.length (onInputChange multiple eventFiles)
     = (if Nat.eqb (List.length files) 0 then 0 else 1)%nat
  /\ onInputChange false eventFiles
     = match hd_error files with
       | Some first => [[first]]
       | None => []
       end
  /\ onInputChange true eventFiles
     = (if Nat.eqb (List.length files) 0 then [] else [files]).
Proof.
  intros multiple eventFiles files. subst files.
  unfold onDrop, onInputChange, callOnFiles. cbn [onFilesCalls].
  destruct (filesOrEmpty eventFiles) as [|first rest]; cbn.
  - repeat split; auto.
  - repeat split; auto.
    intros [H|[]]. destruct multiple; discriminate.
Qed.

(** * Part IV: further properties of the component and the page *)

(** ** Which scene a time falls in *)

Lemma Chain_nonempty : forall lo hi l s,
  Chain lo hi l -> In s l -> start s < end_ s.
Proof.
  induction 1 as [lo|s0 l hi Hlt Hch IH]; intros Hin; [contradiction|].
  destruct Hin as [->|Hin]; auto.
Qed.

(** In a chain the lookup returns the one scene that contains the time. *)
Lemma findScene_unique : forall lo hi l t s,
  Chain lo hi l -> In s l -> inScene t s = true -> findScene t l = Some s.
Proof.
  intros lo hi l t s Hch Hin Hs. unfold findScene.
  destruct (find (inScene t) l) as [s'|] eqn:E.
  - apply find_some in E. destruct E as [Hin' Hs'].
    destruct (In_nth_error_ex _ _ _ Hin) as [i Hi].
    destruct (In_nth_error_ex _ _ _ Hin') as [j Hj].
    assert (i = j) by (eapply Chain_disjoint; eassumption).
    subst j. congruence.
  - exfalso. pose proof (find_none _ _ E s Hin) as H. congruence.
Qed.

Lemma In_imageScenes : forall r i0 c i,
  (i < r)%nat ->
  In (mkScene Image (Some (i0 + i)%nat)
        (c + Z.of_nat i * perImageMs) (c + Z.of_nat (S i) * perImageMs))
     (imageScenes r i0 c).
Proof.
  induction r as [|r IH]; intros i0 c i Hi; [lia|].
  cbn [imageScenes]. destruct i as [|i].
  - left. f_equal; first [lia | f_equal; lia].
  - right.
    replace (i0 + S i)%nat with (S i0 + i)%nat by lia.
    replace (c + Z.of_nat (S i) * perImageMs)
      with ((c + perImageMs) + Z.of_nat i * perImageMs) by lia.
    replace (c + Z.of_nat (S (S i)) * perImageMs)
      with ((c + perImageMs) + Z.of_nat (S i) * perImageMs) by lia.
    apply IH. lia.
Qed.

Lemma In_buildScenes_image : forall n i,
  (i < n)%nat -> In (imageScene i) (buildScenes n).
Proof.
  intros n i Hi. rewrite buildScenes_eq. right. apply in_or_app. left.
  apply (In_imageScenes n 0 introMs i Hi).
Qed.

Lemma In_buildScenes_price : forall n, In (priceScene n) (buildScenes n).
Proof.
  intros n. rewrite buildScenes_eq. right. apply in_or_app. right.
  left. reflexivity.
Qed.

Lemma In_buildScenes_outro : forall n, In (outroScene n) (buildScenes n).
Proof.
  intros n. rewrite buildScenes_eq. right. apply in_or_app. right.
  right. left. reflexivity.
Qed.

(** X1.  The scene [drawFrame] picks, by the time it uses: the intro before
    1500 ms; the image scene of index [i], which shows [bitmaps[i]], from
    [1500 + 3200 i] to [1500 + 3200 (i + 1)] for every [i] below the bitmap
    count; then the price scene for 1800 ms and the outro for 800 ms. *)
Theorem locateScene_by_time : forall (cmp : Composer) (tMs : Q),
  let n := List.length (bitmaps cmp) in
  let time := clampTime tMs (totalOf cmp) in
  ((0 <= time)%Q -> (time < inject_Z introMs)%Q ->
   locateScene cmp tMs = Some (mkScene Intro None 0 introMs))
  /\ (forall i : nat,
        (i < n)%nat ->
        (inject_Z (introMs + Z.of_nat i * perImageMs) <= time)%Q ->
        (time < inject_Z (introMs + Z.of_nat (S i) * perImageMs))%Q ->
        locateScene cmp tMs = Some (imageScene i))
  /\ ((inject_Z (introMs + Z.of_nat n * perImageMs) <= time)%Q ->
      (time < inject_Z (introMs + Z.of_nat n * perImageMs + priceMs))%Q ->
      locateScene cmp tMs = Some (priceScene n))
  /\ ((inject_Z (introMs + Z.of_nat n * perImageMs + priceMs) <= time)%Q ->
      (time < inject_Z (scenesEnd n))%Q ->
      locateScene cmp tMs = Some (outroScene n)).
Proof.
  intros cmp tMs n time. unfold locateScene. fold n. fold time.
  pose proof (Chain_buildScenes n) as Hch.
  repeat split.
  - intros H0 H1. eapply findScene_unique; [exact Hch| |].
    + rewrite buildScenes_eq. left. reflexivity.
    + apply inScene_iff. cbn [start end_]. split; assumption.
  - intros i Hi H0 H1. eapply findScene_unique; [exact Hch| |].
    + now apply In_buildScenes_image.
    + apply inScene_iff. unfold imageScene. cbn [start end_].
      split; assumption.
  - intros H0 H1. eapply findScene_unique; [exact Hch| |].
    + apply In_buildScenes_price.
    + apply inScene_iff. unfold priceScene. cbn [start end_].
      split; assumption.
  - intros H0 H1. eapply findScene_unique; [exact Hch| |].
    + apply In_buildScenes_outro.
    + apply inScene_iff. unfold outroScene. cbn [start end_].
      split; assumption.
Qed.

(** A run of [locateScene_by_time]: with three bitmaps, 5000 ms falls in the
    image scene of index 1. *)
Lemma locateScene_by_time_witness :
  locateScene (sampleComposer modern 3 3) 5000 = Some (imageScene 1).
Proof.
  destruct (locateScene_by_time (sampleComposer modern 3 3) 5000%Q)
    as (_ & H & _).
  apply (H 1%nat); [vm_compute; lia | vm_compute; discriminate | reflexivity].
Defined.

(** X2.  The progress handed to the scene's draw routine,
    [(time - scene.start) / (scene.end - scene.start)], lies in [0, 1) for
    every scene the lookup returns; it is 0 exactly at the scene's start. *)
Theorem sceneProgress_range : forall (cmp : Composer) (tMs : Q) (scene : Scene),
  locateScene cmp tMs = Some scene ->
  (0 <= sceneProgress cmp tMs scene)%Q
  /\ (sceneProgress cmp tMs scene < 1)%Q
  /\ ((sceneProgress cmp tMs scene == 0)%Q
      <-> (clampTime tMs (totalOf cmp) == inject_Z (start scene))%Q).
Proof.
  intros cmp tMs scene Hloc. unfold locateScene, findScene in Hloc.
  apply find_some in Hloc. destruct Hloc as [Hin Hs].
  apply inScene_iff in Hs. destruct Hs as [H0 H1].
  pose proof (Chain_nonempty _ _ _ _ (Chain_buildScenes _) Hin) as Hlen.
  rewrite Zlt_Qlt in Hlen.
  unfold sceneProgress.
  set (time := clampTime tMs (totalOf cmp)) in *.
  set (s := inject_Z (start scene)) in *.
  set (e := inject_Z (end_ scene)) in *.
  assert (Hpos : (0 < e - s)%Q) by lra.
  split; [|split].
  - apply Qle_shift_div_l; [exact Hpos|]. lra.
  - apply Qlt_shift_div_r; [exact Hpos|]. lra.
  - split; intro H.
    + assert (Hm : ((time - s) / (e - s) * (e - s) == 0 * (e - s))%Q)
        by (now rewrite H).
      rewrite Qmult_0_l in Hm.
      unfold Qdiv in Hm. rewrite <- Qmult_assoc in Hm.
      rewrite (Qmult_comm (/ (e - s))) in Hm.
      rewrite Qmult_inv_r in Hm by lra. lra.
    + assert (Hz : (time - s == 0)%Q) by lra.
      unfold Qdiv. rewrite Hz. apply Qmult_0_l.
Qed.

(** A run of [sceneProgress_range]: 5000 ms in the image scene of index 1. *)
Lemma sceneProgress_range_witness :
  (0 <= sceneProgress (sampleComposer modern 3 3) 5000 (imageScene 1))%Q
  /\ (sceneProgress (sampleComposer modern 3 3) 5000 (imageScene 1) < 1)%Q.
Proof.
  destruct (sceneProgress_range (sampleComposer modern 3 3) 5000%Q
              (imageScene 1) eq_refl) as (H0 & H1 & _).
  split; assumption.
Defined.

(** ** The bitmap-loading effect *)

Lemma loadBitmapsLoop_flat_map : forall decode fs imgs,
  loadBitmapsLoop decode fs imgs = imgs ++ flat_map (decoded decode) fs.
Proof.
  intros decode fs. induction fs as [|f fs IH]; intros imgs;
    cbn [loadBitmapsLoop flat_map]; [now rewrite app_nil_r|].
  unfold decoded at 1.
  destruct (String.prefix "image/" (fileType f)); cbn [negb].
  - destruct (decode f) as [bmp|]; rewrite IH.
    + now rewrite <- app_assoc.
    + reflexivity.
  - now rewrite IH.
Qed.

Lemma length_flat_map_decoded : forall decode fs,
  (List.length (flat_map (decoded decode) fs) <= List.length fs)%nat
  /\ (List.length (flat_map (decoded decode) fs) = List.length fs
      <-> forallb (fun f => negb (Nat.eqb (List.length (decoded decode f)) 0))
            fs = true).
Proof.
  intros decode fs. induction fs as [|f fs [IH1 IH2]]; cbn [flat_map forallb].
  - split; [cbn; lia|]. split; reflexivity.
  - rewrite length_app. cbn [List.length].
    assert (Hd : (List.length (decoded decode f) <= 1)%nat).
    { unfold decoded. destruct (String.prefix _ _); [|cbn; lia].
      destruct (decode f); cbn; lia. }
    split; [lia|].
    rewrite andb_true_iff, negb_true_iff, Nat.eqb_neq, <- IH2. lia.
Qed.

(** X3.  The bitmap-loading effect keeps, in the order of the assets, one
    bitmap for every file whose type starts with ["image/"] and that
    decodes, and skips every other file: there are never more bitmaps than
    assets, and as many exactly when every file is a decodable image.  So
    [bitmaps[i]] is the i-th file that survived, not the i-th asset. *)
Theorem loadBitmaps_keeps_decodable_images :
  forall (decode : File -> option ImageBitmap) (fs : list File),
  loadBitmaps decode fs = flat_map (decoded decode) fs
  /\ (List.length (loadBitmaps decode fs) <= List.length fs)%nat
  /\ (List.length (loadBitmaps decode fs) = List.length fs
      <-> forallb (fun f => String.prefix "image/" (fileType f)
                            && match decode f with
                               | Some _ => true
                               | None => false
                               end) fs = true).
Proof.
  intros decode fs. unfold loadBitmaps.
  rewrite loadBitmapsLoop_flat_map. cbn [app].
  destruct (length_flat_map_decoded decode fs) as [H1 H2].
  split; [reflexivity|]. split; [exact H1|].
  rewrite H2. 
  assert (E : forall f,
             negb (Nat.eqb (List.length (decoded decode f)) 0)
             = String.prefix "image/" (fileType f)
               && match decode f with Some _ => true | None => false end).
  { intros f. unfold decoded. destruct (String.prefix _ _); [|reflexivity].
    destruct (decode f); reflexivity. }
  assert (Hall : forall l,
             forallb (fun f => negb (Nat.eqb (List.length (decoded decode f)) 0)) l
             = forallb (fun f => String.prefix "image/" (fileType f)
                                 && match decode f with
                                    | Some _ => true
                                    | None => false
                                    end) l).
  { induction l as [|f l IH]; cbn [forallb]; [reflexivity|].
    now rewrite E, IH. }
  rewrite Hall. reflexivity.
Qed.

(** X4.  A component whose bitmaps are what the effect loaded from its
    assets, and whose duration was computed for those assets, renders every
    timestamp [>= 0] without an exception exactly when every asset gave a
    bitmap: one skipped file is enough for some frame to throw. *)
Theorem loaded_assets_render_iff_all_decoded :
  forall (K : KenBurns) (decode : File -> option ImageBitmap) (p : Props),
  let cmp := mkComposer p (loadBitmaps decode (assets p))
               (List.length (assets p)) in
  (forall (tMs : Q) (c : Ctx),
     (0 <= tMs)%Q -> exists c', drawFrame K cmp tMs c = (Ok tt, c'))
  <-> List.length (loadBitmaps decode (assets p)) = List.length (assets p).
Proof.
  intros K decode p cmp. split.
  - intros Hall.
    pose proof (loadBitmaps_length decode (assets p)) as Hle.
    destruct (Nat.eq_dec (List.length (loadBitmaps decode (assets p)))
                (List.length (assets p))) as [E|E]; [exact E|exfalso].
    assert (Hlt : (List.length (bitmaps cmp) < memoAssetsLength cmp)%nat)
      by (cbn; lia).
    set (t := inject_Z (scenesEnd (List.length (bitmaps cmp)))).
    destruct (locateScene_none_late cmp t Hlt (Qle_refl _)) as [_ Hnone].
    assert (Ht : (0 <= t)%Q).
    { subst t. change 0%Q with (inject_Z 0). rewrite <- Zle_Qle.
      unfold_ms. lia. }
    destruct (Hall t (freshCtx 0 0) Ht) as [c' Hok].
    destruct (drawFrame_result K cmp t (freshCtx 0 0)) as [c'' Hres].
    rewrite Hnone in Hres. congruence.
  - intros E tMs c Ht.
    destruct (locateScene_some cmp tMs Ht) as (scene & Hloc & _);
      [cbn; lia|].
    destruct (drawFrame_result K cmp tMs c) as [c' Hres].
    rewrite Hloc in Hres. now exists c'.
Qed.

(** ** The memoised duration over the renders *)

Lemma memoAfter_same_dep : forall run cell b,
  memoDep cell = b ->
  Forall (fun ba => fst ba = b) run ->
  fold_left (fun cell ba => Some (useMemoTotal cell (fst ba) (snd ba)))
    run (Some cell) = Some cell.
Proof.
  induction run as [|[b' a'] run IH]; intros cell b Hdep Hall; [reflexivity|].
  inversion Hall as [|? ? Hb Hall']; subst. cbn [fold_left fst snd].
  cbn in Hb. subst b'.
  rewrite (useMemoTotal_same cell (memoDep cell) a' eq_refl).
  now apply IH with (b := memoDep cell).
Qed.

(** X5.  The duration the component uses is recomputed only on a render
    whose [bitmaps.length] differs from the one before: after any renders,
    it is the formula at the current [bitmaps.length] and at the
    [assets.length] of the render that last changed [bitmaps.length] (or of
    the first render), however [assets.length] changed since. *)
Theorem memo_follows_last_change_of_bitmaps :
  forall (before : list (nat * nat)) (b a : nat) (since : list (nat * nat)),
  match rev before with
  | [] => True
  | (b', _) :: _ => b' <> b
  end ->
  Forall (fun ba => fst ba = b) since ->
  memoAfter (before ++ (b, a) :: since)
  = Some (mkMemo b a (totalDurationMs b a)).
Proof.
  intros before b a since Hchange Hsame. unfold memoAfter.
  rewrite fold_left_app. cbn [fold_left fst snd].
  assert (E : useMemoTotal
                (fold_left
                   (fun cell ba => Some (useMemoTotal cell (fst ba) (snd ba)))
                   before None) b a
              = mkMemo b a (totalDurationMs b a)).
  { destruct (rev before) as [|[b' a'] r] eqn:Er.
    - assert (before = []) as -> by (apply (f_equal (@rev _)) in Er;
        now rewrite rev_involutive in Er).
      reflexivity.
    - assert (Eb : before = rev r ++ [(b', a')]).
      { apply (f_equal (@rev _)) in Er. now rewrite rev_involutive in Er. }
      rewrite Eb. fold (memoAfter (rev r ++ [(b', a')])).
      rewrite memoAfter_snoc. unfold useMemoTotal at 1.
      rewrite useMemoTotal_dep.
      destruct (Nat.eqb b' b) eqn:E; [|reflexivity].
      apply Nat.eqb_eq in E. contradiction. }
  rewrite E. now apply memoAfter_same_dep with (b := b).
Qed.

(** A run of [memo_follows_last_change_of_bitmaps]: mounted empty, then
    three files dropped that never decode: the duration stays 1500 while
    [Math.max(bitmaps.length, assets.length)] is 3. *)
Lemma memo_follows_last_change_of_bitmaps_witness :
  memoAfter [(0, 0); (0, 3); (0, 3)]%nat
  = Some (mkMemo 0 0 (totalDurationMs 0 0)).
Proof.
  apply (memo_follows_last_change_of_bitmaps [] 0 0 [(0, 3); (0, 3)]%nat).
  - exact I.
  - repeat constructor.
Defined.

(** ** What a frame keeps of the context it is given *)

Section Frames.

Variable I : Ctx -> Prop.
Hypothesis HR : framedRest I.
Hypothesis HA : framedAlpha I.

Lemma framed_set_globalAlpha : forall v, preserves I (set_globalAlpha v).
Proof.
  intros v c Hc. unfold set_globalAlpha, modify. cbn.
  destruct (Qle_bool 0 v && Qle_bool v 1); [|exact Hc]. now apply HA.
Qed.

Lemma framed_set_fillStyle : forall p, preserves I (set_fillStyle p).
Proof. intros p c Hc. cbn. now apply HR. Qed.

Lemma framed_set_filter : forall f, preserves I (set_filter f).
Proof. intros f c Hc. cbn. now apply HR. Qed.

Lemma framed_set_font : forall f, preserves I (set_font f).
Proof. intros f c Hc. cbn. now apply HR. Qed.

Lemma framed_set_textAlign : forall a, preserves I (set_textAlign a).
Proof. intros a c Hc. cbn. now apply HR. Qed.

Lemma framed_set_textBaseline : forall b, preserves I (set_textBaseline b).
Proof. intros b c Hc. cbn. now apply HR. Qed.

Lemma framed_beginPath : preserves I beginPath.
Proof. intros c Hc. cbn. now apply HR. Qed.

Lemma framed_pathCmd : forall p, preserves I (pathCmd p).
Proof. intros p c Hc. cbn. now apply HR. Qed.

Lemma framed_paintOp : forall o, preserves I (paintOp o).
Proof. intros o c Hc. cbn. now apply HR. Qed.

Lemma framed_fillRect : forall x y w h, preserves I (fillRect x y w h).
Proof. intros x y w h c Hc. unfold fillRect. now apply framed_paintOp. Qed.

Lemma framed_fillText : forall s x y, preserves I (fillText s x y).
Proof. intros s x y c Hc. unfold fillText. now apply framed_paintOp. Qed.

Lemma framed_drawImage : forall b sx sy sw sh dx dy dw dh,
  preserves I (drawImage b sx sy sw sh dx dy dw dh).
Proof.
  intros until dh. intros c Hc. unfold drawImage. now apply framed_paintOp.
Qed.

Lemma framed_fill : preserves I fill.
Proof. intros c Hc. unfold fill. now apply framed_paintOp. Qed.

Variable K : KenBurns.

Ltac framed_step :=
  lazymatch goal with
  | |- preserves _ (bind _ _) => apply preserves_bind; [|intros ?]
  | |- preserves _ (match ?x with _ => _ end) => destruct x
  | |- preserves _ (ret _) => apply preserves_ret
  | |- preserves _ (get _) => apply preserves_get
  | |- preserves _ (set_fillStyle _) => apply framed_set_fillStyle
  | |- preserves _ (set_filter _) => apply framed_set_filter
  | |- preserves _ (set_globalAlpha _) => apply framed_set_globalAlpha
  | |- preserves _ (set_font _) => apply framed_set_font
  | |- preserves _ (set_textAlign _) => apply framed_set_textAlign
  | |- preserves _ (set_textBaseline _) => apply framed_set_textBaseline
  | |- preserves _ beginPath => apply framed_beginPath
  | |- preserves _ (pathCmd _) => apply framed_pathCmd
  | |- preserves _ (fillRect _ _ _ _) => apply framed_fillRect
  | |- preserves _ (fillText _ _ _) => apply framed_fillText
  | |- preserves _ (drawImage _ _ _ _ _ _ _ _ _) => apply framed_drawImage
  | |- preserves _ fill => apply framed_fill
  end.

Lemma framed_drawIntro : forall bmp title subtitle prog st,
  preserves I (drawIntro K bmp title subtitle prog st).
Proof.
  intros. unfold drawIntro, canvasW, canvasH. cbv zeta. repeat framed_step.
Qed.

Lemma framed_drawImageScene : forall bmp caption index prog st,
  preserves I (drawImageScene K bmp caption index prog st).
Proof.
  intros. unfold drawImageScene, canvasW, canvasH. cbv zeta.
  repeat framed_step.
Qed.

Lemma framed_roundRect : forall x y w h r, preserves I (roundRect x y w h r).
Proof. intros. unfold roundRect. cbv zeta. repeat framed_step. Qed.

Lemma framed_drawPrice : forall p c prog st,
  preserves I (drawPrice p c prog st).
Proof.
  intros. unfold drawPrice, canvasW, canvasH. cbv zeta.
  repeat lazymatch goal with
         | |- preserves _ (roundRect _ _ _ _ _) => apply framed_roundRect
         | |- _ => framed_step
         end.
Qed.

Lemma framed_drawVignette : preserves I drawVignette.
Proof.
  unfold drawVignette, canvasW, canvasH. cbv zeta. repeat framed_step.
Qed.

Lemma framed_drawLetterbox : preserves I drawLetterbox.
Proof.
  unfold drawLetterbox, canvasW, canvasH. cbv zeta. repeat framed_step.
Qed.

Lemma framed_drawScene : forall cmp scene prog,
  preserves I (drawScene K cmp scene prog).
Proof.
  intros. unfold drawScene. cbv zeta. destruct (kind scene).
  - apply framed_drawIntro.
  - destruct (idx scene); apply framed_drawImageScene.
  - apply framed_drawPrice.
  - unfold canvasW, canvasH. repeat framed_step.
Qed.

Lemma framed_renderScene : forall cmp t scene,
  preserves I (renderScene K cmp t scene).
Proof.
  intros. unfold renderScene. cbv zeta.
  repeat (apply preserves_bind; [|intros ?]);
    try apply framed_set_filter.
  - apply framed_drawScene.
  - destruct (negb _); [apply framed_drawVignette|apply preserves_ret].
  - destruct (style_eqb _ _); [apply framed_drawLetterbox|apply preserves_ret].
Qed.

End Frames.

Lemma framedRest_startsWith : forall base, framedRest (startsWith base).
Proof.
  intros base. unfold framedRest, startsWith.
  repeat split; try (intros ? c H; exact H).
  intros o c [extra H]. exists (extra ++ [o]). cbn.
  now rewrite H, app_assoc.
Qed.

Lemma framedAlpha_startsWith : forall base, framedAlpha (startsWith base).
Proof. intros base v c H. exact H. Qed.

Lemma framedRest_sized : forall W H, framedRest (sized W H).
Proof.
  intros W H. unfold framedRest, sized.
  repeat split; intros; match goal with Hc : _ /\ _ |- _ => apply Hc end.
Qed.

Lemma framedAlpha_sized : forall W H, framedAlpha (sized W H).
Proof. intros W H v c Hc. exact Hc. Qed.

Lemma framedRest_alphaIs : forall v, framedRest (alphaIs v).
Proof.
  intros v. unfold framedRest, alphaIs. repeat split; intros ? c H; exact H.
Qed.

Section FrameContext.

Variable K : KenBurns.

(** A frame keeps the size of the canvas. *)
Lemma drawFrame_sized : forall cmp t c,
  canvasWidth (snd (drawFrame K cmp t c)) = canvasWidth c
  /\ canvasHeight (snd (drawFrame K cmp t c)) = canvasHeight c.
Proof.
  intros cmp t c. unfold drawFrame, bind. rewrite drawBackground_eq.
  destruct (locateScene cmp t) as [scene|]; [|split; reflexivity].
  apply (framed_renderScene (sized (canvasWidth c) (canvasHeight c))
           (framedRest_sized _ _) (framedAlpha_sized _ _) K cmp t scene).
  split; reflexivity.
Qed.

(** X6.  Every frame starts from a cleared canvas: the display list
    [drawFrame] leaves begins with the black background rectangle over the
    whole canvas, painted with the global alpha and the filter the context
    had on entry, and neither the previous display list nor the previous
    fill style has any effect on the call. *)
Theorem drawFrame_starts_from_background :
  forall (cmp : Composer) (tMs : Q) (c : Ctx),
  (exists rest,
     surface (snd (drawFrame K cmp tMs c))
     = backgroundOp c (globalAlpha c) (filterCss c) :: rest)
  /\ forall (ops : list Op) (p : Paint),
       drawFrame K cmp tMs (with_surface ops (with_fillStyle p c))
       = drawFrame K cmp tMs c.
Proof.
  intros cmp tMs c. split.
  - unfold drawFrame, bind. rewrite drawBackground_eq.
    fold (backgroundOp c (globalAlpha c) (filterCss c)).
    set (bg := backgroundOp c (globalAlpha c) (filterCss c)).
    destruct (locateScene cmp tMs) as [scene|]; [|now exists []].
    destruct (framed_renderScene (startsWith [bg]) (framedRest_startsWith _)
                (framedAlpha_startsWith _) K cmp tMs scene
                (with_surface [bg] (with_fillStyle (CssColor "black") c)))
      as [extra Hs].
    + now exists [].
    + exists extra. exact Hs.
  - intros ops p. unfold drawFrame, bind. now rewrite !drawBackground_eq.
Qed.

End FrameContext.

(** ** The global alpha a frame leaves behind *)

Lemma sets_last : forall v,
  validAlpha v = true -> sets_alpha v (set_globalAlpha v).
Proof.
  intros v Hv c. unfold set_globalAlpha, modify. cbn.
  unfold validAlpha in Hv. now rewrite Hv.
Qed.

Lemma sets_bind_r : forall (A B : Type) v (m : Draw A) (k : A -> Draw B),
  total_draw m -> (forall a, sets_alpha v (k a)) -> sets_alpha v (bind m k).
Proof.
  intros A B v m k Hm Hk c. unfold bind.
  destruct (Hm c) as (a & c' & ->). apply Hk.
Qed.

Lemma sets_bind_l : forall (A B : Type) v (m : Draw A) (k : A -> Draw B),
  sets_alpha v m -> (forall a, preserves (alphaIs v) (k a)) ->
  sets_alpha v (bind m k).
Proof.
  intros A B v m k Hm Hk c. unfold bind. specialize (Hm c).
  destruct (m c) as [[a|e] c']; cbn in Hm |- *; [|exact Hm].
  now apply Hk.
Qed.

Lemma validAlpha_fade : forall prog,
  (0 <= prog)%Q -> validAlpha (1 * fadeOf prog) = true.
Proof.
  intros prog Hp. unfold validAlpha, fadeOf.
  apply andb_true_iff. split; apply Qle_bool_iff.
  - rewrite Qmult_1_l. apply Q.min_glb; lra.
  - rewrite Qmult_1_l. apply Q.le_min_l.
Qed.

Ltac keeps_step :=
  lazymatch goal with
  | |- preserves _ (bind _ _) => apply preserves_bind; [|intros ?]
  | |- preserves _ (match ?x with _ => _ end) => destruct x
  | |- preserves _ (ret _) => apply preserves_ret
  | |- preserves _ (get _) => apply preserves_get
  | |- preserves (alphaIs ?v) (set_fillStyle _) =>
      apply (framed_set_fillStyle _ (framedRest_alphaIs v))
  | |- preserves (alphaIs ?v) (set_filter _) =>
      apply (framed_set_filter _ (framedRest_alphaIs v))
  | |- preserves (alphaIs ?v) (set_font _) =>
      apply (framed_set_font _ (framedRest_alphaIs v))
  | |- preserves (alphaIs ?v) (set_textAlign _) =>
      apply (framed_set_textAlign _ (framedRest_alphaIs v))
  | |- preserves (alphaIs ?v) (set_textBaseline _) =>
      apply (framed_set_textBaseline _ (framedRest_alphaIs v))
  | |- preserves (alphaIs ?v) (roundRect _ _ _ _ _) =>
      apply (framed_roundRect _ (framedRest_alphaIs v))
  | |- preserves (alphaIs ?v) (fillRect _ _ _ _) =>
      apply (framed_fillRect _ (framedRest_alphaIs v))
  | |- preserves (alphaIs ?v) (fillText _ _ _) =>
      apply (framed_fillText _ (framedRest_alphaIs v))
  | |- preserves (alphaIs ?v) (drawImage _ _ _ _ _ _ _ _ _) =>
      apply (framed_drawImage _ (framedRest_alphaIs v))
  | |- preserves (alphaIs ?v) fill =>
      apply (framed_fill _ (framedRest_alphaIs v))
  | |- preserves (alphaIs ?v) drawVignette =>
      apply (framed_drawVignette _ (framedRest_alphaIs v))
  | |- preserves (alphaIs ?v) drawLetterbox =>
      apply (framed_drawLetterbox _ (framedRest_alphaIs v))
  end.

Ltac keeps_tac := cbv zeta; repeat keeps_step.

Ltac valid_tac :=
  first [ reflexivity | assumption | apply validAlpha_fade; assumption ].

Ltac total_side :=
  unfold set_globalAlpha, set_fillStyle, set_filter, set_font, set_textAlign,
    set_textBaseline, canvasW, canvasH, beginPath, pathCmd;
  cbv zeta;
  repeat first [ total_step | apply total_roundRect ].

Ltac sets_tac :=
  cbv zeta;
  lazymatch goal with
  | |- sets_alpha _ (set_globalAlpha _) => apply sets_last; valid_tac
  | |- sets_alpha _ (bind _ _) =>
      first [ apply sets_bind_l; [ solve [sets_tac] | intros ?; solve [keeps_tac] ]
            | apply sets_bind_r; [ solve [total_side] | intros ?; sets_tac ] ]
  | |- sets_alpha _ (match ?x with _ => _ end) => destruct x; sets_tac
  end.

Section ExitAlpha.

Variable K : KenBurns.

Lemma sets_drawIntro : forall bmp title subtitle prog st,
  sets_alpha 1 (drawIntro K bmp title subtitle prog st).
Proof. intros. unfold drawIntro. sets_tac. Qed.

Lemma sets_drawImageScene : forall bmp caption index prog st,
  sets_alpha 1 (drawImageScene K (Some bmp) caption index prog st).
Proof. intros. unfold drawImageScene. sets_tac. Qed.

Lemma sets_drawPrice : forall p c prog st,
  (0 <= prog)%Q ->
  sets_alpha (1 * fadeOf prog) (drawPrice p c prog st).
Proof.
  intros p c prog st Hp. unfold drawPrice. fold (fadeOf prog). sets_tac.
Qed.

End ExitAlpha.

Lemma In_imageScenes_idx : forall r i0 c s,
  In s (imageScenes r i0 c) ->
  exists i, idx s = Some i /\ (i0 <= i < i0 + r)%nat.
Proof.
  induction r as [|r IH]; intros i0 c s Hin; [contradiction|].
  cbn [imageScenes] in Hin. destruct Hin as [<-|Hin].
  - exists i0. cbn. split; [reflexivity|lia].
  - destruct (IH _ _ _ Hin) as (i & Hi & Hr). exists i. split; [exact Hi|lia].
Qed.

(** An image scene of the built list carries the index of a bitmap. *)
Lemma In_buildScenes_idx : forall n s,
  In s (buildScenes n) -> kind s = Image ->
  exists i, idx s = Some i /\ (i < n)%nat.
Proof.
  intros n s Hin Hk. rewrite buildScenes_eq in Hin.
  destruct Hin as [<-|Hin]; [discriminate|].
  apply in_app_or in Hin. destruct Hin as [Hin|Hin].
  - destruct (In_imageScenes_idx _ _ _ _ Hin) as (i & Hi & Hr).
    exists i. split; [exact Hi|lia].
  - destruct Hin as [<-|[<-|[]]]; discriminate.
Qed.

Section AfterFrame.

Variable K : KenBurns.

Lemma sets_drawScene_plain : forall cmp scene prog,
  In scene (buildScenes (List.length (bitmaps cmp))) ->
  kind scene <> Price ->
  sets_alpha 1 (drawScene K cmp scene prog).
Proof.
  intros cmp scene prog Hin Hk. unfold drawScene. cbv zeta.
  destruct (kind scene) eqn:E; [| | congruence |].
  - apply sets_drawIntro.
  - destruct (In_buildScenes_idx _ _ Hin E) as (i & -> & Hi).
    destruct (nth_error (bitmaps cmp) i) as [bmp|] eqn:Eb.
    + apply sets_drawImageScene.
    + apply nth_error_None in Eb. lia.
  - sets_tac.
Qed.

(** After the scene is drawn nothing touches the global alpha. *)
Lemma renderScene_alpha : forall cmp t scene v,
  sets_alpha v (drawScene K cmp scene (sceneProgress cmp t scene)) ->
  sets_alpha v (renderScene K cmp t scene).
Proof.
  intros cmp t scene v Hs. unfold renderScene. cbv zeta.
  apply sets_bind_r; [unfold set_filter; auto with draw|intros ?].
  apply sets_bind_l; [exact Hs|intros ?].
  apply preserves_bind; [|intros ?].
  - destruct (negb _); [keeps_step|apply preserves_ret].
  - apply preserves_bind; [|intros ?].
    + destruct (style_eqb _ _); [keeps_step|apply preserves_ret].
    + keeps_step.
Qed.

Lemma located_in_scene : forall cmp t scene,
  locateScene cmp t = Some scene ->
  In scene (buildScenes (List.length (bitmaps cmp)))
  /\ inScene (clampTime t (totalOf cmp)) scene = true.
Proof.
  intros cmp t scene H. unfold locateScene, findScene in H.
  now apply find_some in H.
Qed.

(** A frame whose scene was found hands the filter back as ["none"]. *)
Lemma drawFrame_exit_filter : forall cmp t c scene,
  locateScene cmp t = Some scene ->
  filterCss (snd (drawFrame K cmp t c)) = "none"%string.
Proof.
  intros cmp t c scene Hloc. unfold drawFrame, bind.
  rewrite drawBackground_eq, Hloc.
  unfold renderScene, bind. cbv zeta. cbn [set_filter modify].
  match goal with |- context [drawScene K cmp scene ?p ?c0] =>
    destruct (total_drawScene K cmp scene p c0) as ([] & c1 & ->) end.
  destruct (negb (style_eqb (style (props cmp)) minimal)).
  - destruct (total_drawVignette c1) as ([] & c2 & ->).
    destruct (style_eqb (style (props cmp)) cinematic).
    + destruct (total_drawLetterbox c2) as ([] & c3 & ->). reflexivity.
    + reflexivity.
  - cbn [ret]. destruct (style_eqb (style (props cmp)) cinematic).
    + destruct (total_drawLetterbox c1) as ([] & c3 & ->). reflexivity.
    + reflexivity.
Qed.

(** X7.  The global alpha a frame leaves on the context: 1 after a frame of
    the intro, of an image scene or of the outro, and after a frame of the
    price scene the fade [Math.min(1, prog * 1.5)] of that frame, which is
    below 1 during the first two thirds of the scene. *)
Theorem drawFrame_exit_alpha :
  forall (cmp : Composer) (tMs : Q) (c : Ctx) (scene : Scene),
  locateScene cmp tMs = Some scene ->
  let prog := sceneProgress cmp tMs scene in
  let left := globalAlpha (snd (drawFrame K cmp tMs c)) in
  match kind scene with
  | Price =>
      left = (1 * fadeOf prog)%Q
      /\ ((left < 1)%Q <-> (prog < 2 # 3)%Q)
  | Intro | Image | Outro => left = 1%Q
  end.
Proof.
  intros cmp tMs c scene Hloc prog left.
  destruct (located_in_scene cmp tMs scene Hloc) as [Hin _].
  destruct (sceneProgress_range cmp tMs scene Hloc) as (Hp0 & _ & _).
  assert (E : forall v,
             sets_alpha v (drawScene K cmp scene prog) -> left = v).
  { intros v Hs. subst left. unfold drawFrame, bind.
    rewrite drawBackground_eq, Hloc.
    now apply renderScene_alpha. }
  destruct (kind scene) eqn:Ek.
  - apply E, sets_drawScene_plain; [exact Hin|congruence].
  - apply E, sets_drawScene_plain; [exact Hin|congruence].
  - assert (El : left = (1 * fadeOf prog)%Q).
    { apply E. unfold drawScene. rewrite Ek. cbv zeta.
      now apply sets_drawPrice. }
    split; [exact El|]. rewrite El, Qmult_1_l. unfold fadeOf.
    rewrite Q.min_lt_iff. split.
    + intros [H|H]; [exfalso; revert H; apply Qlt_irrefl|lra].
    + intros H. right. lra.
  - apply E, sets_drawScene_plain; [exact Hin|congruence].
Qed.

(** X8.  The frame painted right after a frame of the price scene has its
    background painted with the fade of that price frame, whatever its own
    timestamp is: translucent when the price frame was in the first two
    thirds of its scene. *)
Theorem frame_after_price_frame_background :
  forall (cmp : Composer) (t1 t2 : Q) (c : Ctx) (scene : Scene),
  locateScene cmp t1 = Some scene ->
  kind scene = Price ->
  exists rest,
    surface (snd (drawFrame K cmp t2 (snd (drawFrame K cmp t1 c))))
    = backgroundOp c (1 * fadeOf (sceneProgress cmp t1 scene)) "none" :: rest.
Proof.
  intros cmp t1 t2 c scene Hloc Hk.
  pose proof (drawFrame_exit_alpha cmp t1 c scene Hloc) as Ha.
  cbv zeta in Ha. rewrite Hk in Ha. destruct Ha as [Ha _].
  pose proof (drawFrame_exit_filter cmp t1 c scene Hloc) as Hf.
  destruct (drawFrame_sized K cmp t1 c) as [Hw Hh].
  destruct (drawFrame_starts_from_background K cmp t2
              (snd (drawFrame K cmp t1 c))) as [[rest Hs] _].
  exists rest. rewrite Hs. unfold backgroundOp.
  now rewrite Ha, Hf, Hw, Hh.
Qed.

End AfterFrame.

(** A run of [drawFrame_exit_alpha]: 100 ms into the price scene of a
    one-bitmap timeline the fade is 1/12. *)
Lemma drawFrame_exit_alpha_witness :
  let cmp := sampleComposer modern 1 1 in
  let prog := sceneProgress cmp 4800 (priceScene 1) in
  let left := globalAlpha (snd (drawFrame specK cmp 4800 sampleCtx)) in
  left = (1 * fadeOf prog)%Q /\ ((left < 1)%Q <-> (prog < 2 # 3)%Q).
Proof.
  assert (Hloc : locateScene (sampleComposer modern 1 1) 4800
                 = Some (priceScene 1)) by (vm_compute; reflexivity).
  exact (drawFrame_exit_alpha specK (sampleComposer modern 1 1) 4800%Q
           sampleCtx (priceScene 1) Hloc).
Defined.

(** A run of [frame_after_price_frame_background]: a frame at 4800 ms after
    a frame at 4750 ms. *)
Lemma frame_after_price_frame_background_witness :
  exists rest,
    surface (snd (drawFrame specK (sampleComposer modern 1 1) 4800
                    (snd (drawFrame specK (sampleComposer modern 1 1) 4750
                            sampleCtx))))
    = backgroundOp sampleCtx
        (1 * fadeOf (sceneProgress (sampleComposer modern 1 1) 4750
                       (priceScene 1))) "none" :: rest.
Proof.
  assert (Hloc : locateScene (sampleComposer modern 1 1) 4750
                 = Some (priceScene 1)) by (vm_compute; reflexivity).
  exact (frame_after_price_frame_background specK
           (sampleComposer modern 1 1) 4750%Q 4800%Q sampleCtx (priceScene 1)
           Hloc eq_refl).
Defined.

(** ** Rounding *)

Lemma Qfloor_unique : forall (x : Q) (k : Z),
  (inject_Z k <= x)%Q -> (x < inject_Z (k + 1))%Q -> Qfloor x = k.
Proof.
  intros x k H1 H2.
  pose proof (Qfloor_resp_le _ _ H1) as Hlo. rewrite Qfloor_Z in Hlo.
  assert (Hhi : Qfloor x < k + 1).
  { rewrite Zlt_Qlt. eapply Qle_lt_trans; [apply Qfloor_le|exact H2]. }
  lia.
Qed.

Lemma Math_round_Z : forall z : Z, Math_round (inject_Z z) = z.
Proof.
  intros z. unfold Math_round. apply Qfloor_unique.
  - lra.
  - rewrite inject_Z_plus. change (inject_Z 1) with 1%Q. lra.
Qed.

Lemma Math_round_nonneg : forall x : Q, (0 <= x)%Q -> 0 <= Math_round x.
Proof.
  intros x Hx. unfold Math_round.
  change 0 with (Qfloor (inject_Z 0)) at 1.
  rewrite Qfloor_Z. 
  assert (H : (inject_Z 0 <= x + 0.5)%Q) by (change (inject_Z 0) with 0%Q; lra).
  apply Qfloor_resp_le in H. now rewrite Qfloor_Z in H.
Qed.

(** ** The letterbox *)

(** X9.  On a canvas of any size the letterbox paints two bars of the
    letterbox colour over the full width, of the same height [pad >= 0], one
    at the top and one at the bottom; what they leave between them is
    [Math.min(H, Math.round(W / 2.35))] high, so the bars never overlap, and
    they are empty when the canvas is already that flat. *)
Theorem drawLetterbox_geometry : forall c : Ctx,
  0 <= canvasWidth c -> 0 <= canvasHeight c ->
  let W := inject_Z (canvasWidth c) in
  let H := inject_Z (canvasHeight c) in
  let visible := Qmin H (inject_Z (Math_round (W / 2.35))) in
  exists pad : Q,
    fst (drawLetterbox c) = Ok tt
    /\ surface (snd (drawLetterbox c))
       = surface c
         ++ [ OpFillRect 0 0 W pad (CssColor letterboxColor)
                (globalAlpha c) (filterCss c);
              OpFillRect 0 (H - pad) W pad (CssColor letterboxColor)
                (globalAlpha c) (filterCss c) ]
    /\ (0 <= pad)%Q
    /\ (pad + visible + pad == H)%Q
    /\ (0 <= visible)%Q /\ (visible <= H)%Q
    /\ (pad <= H - pad)%Q.
Proof.
  intros c HW HH W H visible.
  exists (Qmax 0 ((H - visible) / 2)).
  assert (Hv1 : (visible <= H)%Q) by apply Q.le_min_l.
  assert (HW0 : (0 <= W)%Q)
    by (subst W; change 0%Q with (inject_Z 0); now rewrite <- Zle_Qle).
  assert (HH0 : (0 <= H)%Q)
    by (subst H; change 0%Q with (inject_Z 0); now rewrite <- Zle_Qle).
  assert (Hv0 : (0 <= visible)%Q).
  { subst visible. apply Q.min_glb; [exact HH0|].
    change 0%Q with (inject_Z 0). rewrite <- Zle_Qle.
    apply Math_round_nonneg. apply Qle_shift_div_l; lra. }
  assert (Hpad : (Qmax 0 ((H - visible) / 2) == (H - visible) / 2)%Q).
  { apply Q.max_r. apply Qle_shift_div_l; lra. }
  split; [reflexivity|]. split.
  { unfold drawLetterbox, canvasW, canvasH, bind, get. cbn.
    now rewrite <- app_assoc. }
  split; [apply Q.le_max_l|].
  split; [rewrite Hpad; field|].
  split; [exact Hv0|]. split; [exact Hv1|].
  rewrite Hpad.
  assert (E : (H - (H - visible) / 2 == (H + visible) / 2)%Q) by field.
  rewrite E. apply Qle_shift_div_l; [lra|].
  assert (E2 : ((H - visible) / 2 * 2 == H - visible)%Q) by field.
  rewrite E2. lra.
Qed.

(** A run of [drawLetterbox_geometry] on the 1280 x 720 canvas. *)
Lemma drawLetterbox_geometry_witness :
  exists pad : Q,
    fst (drawLetterbox sampleCtx) = Ok tt
    /\ surface (snd (drawLetterbox sampleCtx))
       = surface sampleCtx
         ++ [ OpFillRect 0 0 1280 pad (CssColor letterboxColor) 1 "none";
              OpFillRect 0 (720 - pad) 1280 pad (CssColor letterboxColor)
                1 "none" ]
    /\ (0 <= pad)%Q
    /\ (pad + Qmin 720 (inject_Z (Math_round (1280 / 2.35))) + pad == 720)%Q
    /\ (0 <= Qmin 720 (inject_Z (Math_round (1280 / 2.35))))%Q
    /\ (Qmin 720 (inject_Z (Math_round (1280 / 2.35))) <= 720)%Q
    /\ (pad <= 720 - pad)%Q.
Proof.
  apply (drawLetterbox_geometry sampleCtx); vm_compute; discriminate.
Defined.

(** ** The duration shown under the canvas *)

Lemma totalDurationMs_hundreds : forall b a,
  exists k : Z, totalDurationMs b a = 100 * k.
Proof.
  intros b a. unfold totalDurationMs.
  destruct (Nat.eqb (Nat.max b a) 0).
  - exists 15. reflexivity.
  - exists (32 * Z.of_nat (Nat.max b a) + 41). unfold_ms. lia.
Qed.

(** X10.  The duration shown under the canvas,
    [Math.round(totalDurationMs / 100) / 10] seconds, is the exact duration:
    every total duration is a whole number of tenths of a second, so the
    rounding never changes it. *)
Theorem shownSeconds_exact : forall b a : nat,
  (shownSeconds (totalDurationMs b a)
   == inject_Z (totalDurationMs b a) / 1000)%Q.
Proof.
  intros b a. destruct (totalDurationMs_hundreds b a) as [k ->].
  unfold shownSeconds.
  assert (E : (inject_Z (100 * k) / 100 == inject_Z k)%Q).
  { rewrite inject_Z_mult. change (inject_Z 100) with 100%Q. field. }
  rewrite (Qfloor_comp _ _ (Qplus_comp _ _ E _ _ (Qeq_refl 0.5))
           : Math_round (inject_Z (100 * k) / 100) = Math_round (inject_Z k)).
  rewrite Math_round_Z, inject_Z_mult. change (inject_Z 100) with 100%Q.
  field.
Qed.

(** ** The preview loop *)

Lemma Qtrunc_nonneg : forall x : Q, (0 <= x)%Q -> Qtrunc x = Qfloor x.
Proof.
  intros x Hx. unfold Qtrunc. apply Qle_bool_iff in Hx. now rewrite Hx.
Qed.

Lemma jsRem_range : forall x m : Q,
  (0 <= x)%Q -> (0 < m)%Q -> (0 <= jsRem x m)%Q /\ (jsRem x m < m)%Q.
Proof.
  intros x m Hx Hm. unfold jsRem.
  assert (Hq : (0 <= x / m)%Q) by (apply Qle_shift_div_l; lra).
  rewrite (Qtrunc_nonneg _ Hq).
  pose proof (Qfloor_le (x / m)) as H1.
  pose proof (Qlt_floor (x / m)) as H2.
  rewrite inject_Z_plus in H2. change (inject_Z 1) with 1%Q in H2.
  assert (E : (m * (x / m) == x)%Q) by (apply Qmult_div_r; lra).
  set (F := inject_Z (Qfloor (x / m))) in *.
  set (q := (x / m)%Q) in *.
  split; nra.
Qed.

Lemma jsRem_period : forall (x m : Q) (k : Z),
  (0 <= x)%Q -> (0 < m)%Q -> 0 <= k ->
  (jsRem (x + inject_Z k * m) m == jsRem x m)%Q.
Proof.
  intros x m k Hx Hm Hk. unfold jsRem.
  assert (Hk' : (0 <= inject_Z k)%Q)
    by (change 0%Q with (inject_Z 0); now rewrite <- Zle_Qle).
  assert (Hq : (0 <= x / m)%Q) by (apply Qle_shift_div_l; lra).
  assert (Hq' : (0 <= (x + inject_Z k * m) / m)%Q)
    by (apply Qle_shift_div_l; [lra|nra]).
  rewrite (Qtrunc_nonneg _ Hq), (Qtrunc_nonneg _ Hq').
  assert (E : ((x + inject_Z k * m) / m == x / m + inject_Z k)%Q)
    by (field; lra).
  assert (Ef : Qfloor ((x + inject_Z k * m) / m) = Qfloor (x / m) + k).
  { rewrite (Qfloor_comp _ _ E). apply Qfloor_unique.
    - rewrite inject_Z_plus. pose proof (Qfloor_le (x / m)). lra.
    - rewrite !inject_Z_plus. pose proof (Qlt_floor (x / m)) as H.
      rewrite inject_Z_plus in H. lra. }
  rewrite Ef, inject_Z_plus. ring.
Qed.

Lemma jsRem_comp : forall x y m : Q,
  (x == y)%Q -> (0 <= y)%Q -> (0 < m)%Q -> (jsRem x m == jsRem y m)%Q.
Proof.
  intros x y m E Hy Hm. unfold jsRem.
  assert (Ed : (x / m == y / m)%Q) by (now rewrite E).
  assert (Hq : (0 <= y / m)%Q) by (apply Qle_shift_div_l; lra).
  assert (Hq' : (0 <= x / m)%Q) by (now rewrite Ed).
  rewrite (Qtrunc_nonneg _ Hq), (Qtrunc_nonneg _ Hq'), (Qfloor_comp _ _ Ed).
  now rewrite E.
Qed.

Lemma previewModulus : forall cmp, Z.max (totalOf cmp) 1 = totalOf cmp.
Proof. intros cmp. pose proof (totalOf_pos cmp). lia. Qed.



Section PreviewLoop.

Variable K : KenBurns.

Lemma previewRun_alive : forall cmp s tss run c,
  (memoAssetsLength cmp <= List.length (bitmaps cmp))%nat ->
  Forall (fun ts => (s <= ts)%Q) tss ->
  exists c',
    previewRun K cmp (mkRefs (Some s) run) tss c
    = (map (fun ts => jsRem (ts - s) (inject_Z (totalOf cmp))) tss,
       mkRefs (Some s) (match tss with [] => run | _ :: _ => true end), c').
Proof.
  intros cmp s tss. induction tss as [|ts tss IH]; intros run c Hcount Hall.
  - exists c. reflexivity.
  - inversion Hall as [|? ? Hts Hall']; subst.
    cbn [previewRun map]. unfold loop, previewElapsed, previewOrigin.
    cbn [previewStartRef]. rewrite previewModulus.
    destruct (jsRem_range (ts - s) (inject_Z (totalOf cmp))) as [H0 _].
    { lra. }
    { change 0%Q with (inject_Z 0). rewrite <- Zlt_Qlt.
      pose proof (totalOf_pos cmp). lia. }
    destruct (locateScene_some cmp _ H0 Hcount) as (scene & Hloc & _).
    destruct (drawFrame_result K cmp
                (jsRem (ts - s) (inject_Z (totalOf cmp))) c) as [c1 Hd].
    rewrite Hloc in Hd. rewrite Hd.
    destruct (IH true c1 Hcount Hall') as [c' ->].
    exists c'. destruct tss; reflexivity.
Qed.

(** X11.  When there are at least as many bitmaps as the asset count the
    duration was computed with, and no callback timestamp is earlier than
    the origin, the preview never stops: every callback renders the time
    [(ts - origin) % totalDurationMs], which lies in [0, totalDurationMs),
    and requests the next one; the origin is the timestamp of the first
    callback ever (it is kept when the effect restarts), so that callback
    renders the time 0; and the animation repeats with the period
    [totalDurationMs]. *)
Theorem preview_loops_over_timeline :
  forall (cmp : Composer) (refs : PreviewRefs) (ts0 : Q) (rest : list Q)
         (c : Ctx),
  (memoAssetsLength cmp <= List.length (bitmaps cmp))%nat ->
  let origin := previewOrigin refs ts0 in
  let period := inject_Z (totalOf cmp) in
  let times := map (fun ts => jsRem (ts - origin) period) (ts0 :: rest) in
  Forall (fun ts => (origin <= ts)%Q) (ts0 :: rest) ->
  (exists c',
     previewRun K cmp refs (ts0 :: rest) c
     = (times, mkRefs (Some origin) true, c'))
  /\ Forall (fun e => (0 <= e)%Q /\ (e < period)%Q) times
  /\ (previewStartRef refs = None -> (jsRem (ts0 - origin) period == 0)%Q)
  /\ (forall (ts : Q) (k : Z),
        (origin <= ts)%Q -> 0 <= k ->
        (jsRem (ts + inject_Z k * period - origin) period
         == jsRem (ts - origin) period)%Q).
Proof.
  intros cmp refs ts0 rest c Hcount origin period times Hall.
  assert (Hper : (0 < period)%Q).
  { subst period. change 0%Q with (inject_Z 0). rewrite <- Zlt_Qlt.
    pose proof (totalOf_pos cmp). lia. }
  split; [|split; [|split]].
  - inversion Hall as [|? ? Hts Hall']; subst.
    cbn [previewRun]. unfold loop, previewElapsed. fold origin.
    rewrite previewModulus. fold period.
    destruct (jsRem_range (ts0 - origin) period) as [H0 _]; [lra|exact Hper|].
    destruct (locateScene_some cmp _ H0 Hcount) as (scene & Hloc & _).
    destruct (drawFrame_result K cmp (jsRem (ts0 - origin) period) c)
      as [c1 Hd].
    rewrite Hloc in Hd. rewrite Hd.
    destruct (previewRun_alive cmp origin rest true c1 Hcount Hall')
      as [c' ->].
    exists c'. subst times. cbn [map]. fold period.
    destruct rest; reflexivity.
  - subst times. apply Forall_forall. intros e He.
    apply in_map_iff in He. destruct He as (ts & <- & Hin).
    rewrite Forall_forall in Hall. specialize (Hall ts Hin).
    apply jsRem_range; [lra|exact Hper].
  - intros Hnone. subst origin. unfold previewOrigin. rewrite Hnone.
    unfold jsRem.
    assert (E : (ts0 - ts0 == 0)%Q) by ring.
    assert (Eq : ((ts0 - ts0) / period == 0)%Q)
      by (rewrite E; unfold Qdiv; apply Qmult_0_l).
    assert (Et : Qtrunc ((ts0 - ts0) / period) = 0).
    { rewrite Qtrunc_nonneg by (rewrite Eq; apply Qle_refl).
      rewrite (Qfloor_comp _ _ Eq). reflexivity. }
    rewrite Et. change (inject_Z 0) with 0%Q. ring.
  - intros ts k Hts Hk.
    rewrite <- (jsRem_period (ts - origin) period k); [|lra|exact Hper|exact Hk].
    apply jsRem_comp; [ring| |exact Hper].
    assert ((0 <= inject_Z k)%Q)
      by (change 0%Q with (inject_Z 0); now rewrite <- Zle_Qle).
    nra.
Qed.


End PreviewLoop.

(** A run of [preview_loops_over_timeline]: a fresh preview of one bitmap
    (7300 ms) whose callbacks come at 1000 ms, 1016.7 ms and 9000 ms. *)
Lemma preview_loops_over_timeline_witness :
  exists c',
    previewRun specK (sampleComposer modern 1 1) (mkRefs None false)
      [1000; 1016.7; 9000]%Q sampleCtx
    = (map (fun ts => jsRem (ts - 1000) 7300) [1000; 1016.7; 9000]%Q,
       mkRefs (Some 1000%Q) true, c').
Proof.
  destruct (preview_loops_over_timeline specK (sampleComposer modern 1 1)
              (mkRefs None false) 1000%Q [1016.7; 9000]%Q sampleCtx)
    as [H _].
  - vm_compute. lia.
  - repeat constructor; vm_compute; discriminate.
  - exact H.
Defined.


(** ** The capture before its end, and with a bitmap missing *)

Section CaptureStates.

Variable K : KenBurns.

Lemma drawFrame_zero_ok : forall cmp c,
  exists c', drawFrame K cmp 0 c = (Ok tt, c').
Proof.
  intros cmp c. destruct (drawFrame_result K cmp 0 c) as [c' Hd].
  rewrite locateScene_zero in Hd. now exists c'.
Qed.

(** X13.  In a capture whose recorder was constructed, with at least as
    many bitmaps as the asset count the duration was computed with and clock
    readings not earlier than the start reading: while no callback has seen
    the duration elapse the capture is still pending, every callback so far
    has rendered its frame, and the encoder has not been stopped. *)
Theorem capture_pending_until_duration :
  forall (h : Host) (cmp : Composer) (start : Q) (nows : list Q) (c : Ctx),
  (memoAssetsLength cmp <= List.length (bitmaps cmp))%nat ->
  newMediaRecorder h (selectMimeType h) = Ok tt ->
  Forall (fun now => (start <= now)%Q) nows ->
  Forall (fun now => (now - start < inject_Z (totalOf cmp))%Q) nows ->
  let trace :=
    captureOpening h cmp
    ++ map EvFrame (map (clampedElapsed start (totalOf cmp)) nows) in
  (exists c',
     startRecording K h cmp start nows c = (Pending, trace, c'))
  /\ ~ In EvRecorderStop trace.
Proof.
  intros h cmp start nows c Hcount Hrec Hge Hlt trace. split.
  - unfold startRecording.
    destruct (drawFrame_zero_ok cmp c) as [c1 ->]. rewrite Hrec. cbv zeta.
    destruct (stepLoop_waiting K cmp start nows c1 Hcount Hge Hlt)
      as [c' ->].
    now exists c'.
  - subst trace. intros Hin. apply in_app_or in Hin.
    destruct Hin as [Hin|Hin].
    + unfold captureOpening in Hin. apply in_app_or in Hin.
      destruct Hin as [Hin|Hin].
      * cbn in Hin. intuition discriminate.
      * destruct (hasAudio cmp); cbn in Hin; intuition discriminate.
    + apply in_map_iff in Hin. destruct Hin as (x & Hx & _). discriminate.
Qed.



End CaptureStates.

(** A run of [capture_pending_until_duration]: one bitmap of one asset,
    callbacks 16.7 ms and 5000 ms after the start. *)
Lemma capture_pending_until_duration_witness :
  exists c',
    startRecording specK hostAll (sampleComposer modern 1 1) 1000
      [1016.7; 6000]%Q sampleCtx
    = (Pending,
       captureOpening hostAll (sampleComposer modern 1 1)
       ++ map EvFrame (map (clampedElapsed 1000 7300) [1016.7; 6000]%Q),
       c').
Proof.
  destruct (capture_pending_until_duration specK hostAll
              (sampleComposer modern 1 1) 1000%Q [1016.7; 6000]%Q sampleCtx)
    as [H _].
  - vm_compute. lia.
  - reflexivity.
  - repeat constructor; vm_compute; discriminate.
  - repeat constructor; reflexivity.
  - exact H.
Defined.


(** ** The page *)

Lemma split_nonempty : forall sep s, split sep s <> [].
Proof.
  intros sep s. destruct s as [|ch rest]; cbn [split]; [discriminate|].
  destruct (Ascii.eqb ch sep); [discriminate|].
  destruct (split sep rest); discriminate.
Qed.

(** Splitting what was glued with the separator gives both lists of
    pieces. *)
Lemma split_app_sep : forall sep s t,
  split sep (s ++ String sep t)%string = split sep s ++ split sep t.
Proof.
  intros sep s t. induction s as [|ch s IH]; cbn [String.append split].
  - now rewrite Ascii.eqb_refl.
  - destruct (Ascii.eqb ch sep); [now rewrite IH|].
    rewrite IH. pose proof (split_nonempty sep s) as Hne.
    destruct (split sep s) as [|cur more]; [congruence|reflexivity].
Qed.

Lemma split_oneLine : forall s, oneLine s = true -> split newline s = [s].
Proof.
  induction s as [|ch s IH]; cbn [oneLine split]; [reflexivity|].
  intros H. apply andb_true_iff in H. destruct H as [Hch Hs].
  apply negb_true_iff in Hch. rewrite Hch, (IH Hs). reflexivity.
Qed.

Lemma split_pieces_oneLine : forall s,
  Forall (fun p => oneLine p = true) (split newline s).
Proof.
  induction s as [|ch s IH]; cbn [split].
  - constructor; [reflexivity|constructor].
  - destruct (Ascii.eqb ch newline) eqn:E.
    + constructor; [reflexivity|exact IH].
    + destruct (split newline s) as [|cur more].
      * constructor; [|constructor]. cbn [oneLine]. now rewrite E.
      * inversion IH as [|? ? Hcur Hmore]; subst.
        constructor; [|exact Hmore]. cbn [oneLine]. now rewrite E, Hcur.
Qed.

Lemma parseFeatures_app : forall v w,
  parseFeatures (v ++ String newline w)%string
  = parseFeatures v ++ parseFeatures w.
Proof.
  intros v w. unfold parseFeatures. now rewrite split_app_sep, filter_app.
Qed.

Lemma featuresText_cons : forall x y fs,
  featuresText (x :: y :: fs)
  = (x ++ String newline (featuresText (y :: fs)))%string.
Proof. reflexivity. Qed.

(** X15.  The features box: what is parsed from the text the box shows for a
    list of non-empty one-line features is that list again; the text of two
    parts joined by a line break parses to both lists of features, so a
    line break typed at the end of the text changes nothing (the parsed
    features, and with them the text shown, stay as they were); and no
    parsed feature is ever empty or holds a line break. *)
Theorem features_text_round_trip :
  (forall fs : list string,
     Forall (fun s => nonEmpty s = true /\ oneLine s = true) fs ->
     parseFeatures (featuresText fs) = fs)
  /\ (forall v w : string,
        parseFeatures (v ++ String newline w)%string
        = parseFeatures v ++ parseFeatures w)
  /\ (forall v : string,
        parseFeatures (v ++ String newline EmptyString)%string
        = parseFeatures v)
  /\ (forall v : string,
        Forall (fun s => nonEmpty s = true /\ oneLine s = true)
          (parseFeatures v)).
Proof.
  split; [|split; [exact parseFeatures_app|split]].
  - induction fs as [|x fs IH]; intros Hall; [reflexivity|].
    inversion Hall as [|? ? [Hne Hone] Hall']; subst.
    assert (Hx : parseFeatures x = [x]).
    { unfold parseFeatures. rewrite (split_oneLine x Hone). cbn.
      now rewrite Hne. }
    destruct fs as [|y fs].
    + exact Hx.
    + rewrite featuresText_cons, parseFeatures_app, Hx, (IH Hall').
      reflexivity.
  - intros v. rewrite parseFeatures_app. cbn. apply app_nil_r.
  - intros v. unfold parseFeatures. apply Forall_forall. intros s Hs.
    apply filter_In in Hs. destruct Hs as [Hin Hne]. split; [exact Hne|].
    pose proof (split_pieces_oneLine v) as H.
    rewrite Forall_forall in H. now apply H.
Qed.

(** A run of [features_text_round_trip] on the page's default features. *)
Lemma features_text_round_trip_witness :
  parseFeatures
    (featuresText [ "Premium anodized aluminum"; "Adaptive ambient glow";
                    "12h battery life" ]%string)
  = [ "Premium anodized aluminum"; "Adaptive ambient glow";
      "12h battery life" ]%string.
Proof.
  apply (proj1 features_text_round_trip).
  repeat constructor.
Defined.

(** X16.  What a drop does to the page (a file selection makes the same
    calls): the assets are
    replaced by all the files of the event (they are not appended, and no
    file is filtered by its type), the audio file becomes the first file of
    the event, and an event without files changes neither; so once an audio
    file is set no event of the dropzone removes it. *)
Theorem dropzones_update_page :
  forall (eventFiles : option (list File)) (s : PageState),
  assets (pageProps (dropOnAssets eventFiles s))
  = match filesOrEmpty eventFiles with
    | [] => assets (pageProps s)
    | _ :: _ => filesOrEmpty eventFiles
    end
  /\ audioFile (pageProps (dropOnAudio eventFiles s))
     = match filesOrEmpty eventFiles with
       | [] => audioFile (pageProps s)
       | first :: _ => Some first
       end
  /\ audioFile (pageProps (dropOnAssets eventFiles s)) = audioFile (pageProps s)
  /\ assets (pageProps (dropOnAudio eventFiles s)) = assets (pageProps s)
  /\ (audioFile (pageProps s) = None
      \/ audioFile (pageProps (dropOnAudio eventFiles s)) <> None).
Proof.
  intros eventFiles s. unfold dropOnAssets, dropOnAudio, onDrop, callOnFiles.
  cbn [onFilesCalls].
  destruct (filesOrEmpty eventFiles) as [|first rest]; cbn.
  - repeat split.
    destruct (audioFile (pageProps s)); [right; discriminate|now left].
  - repeat split. right. discriminate.
Qed.

Section Generate.

Variable K : KenBurns.

(** X17.  After [handleGenerate] the page leaves the recording state, and
    offers a download, exactly when the capture resolved; the download then
    names a blob of the selected type.  On a host that does not support the
    selected type the capture is rejected, so the page stays in the
    recording state with the Generate button disabled and no download. *)
Theorem generate_reenabled_only_when_resolved :
  forall (h : Host) (cmp : Composer) (start : Q) (nows : list Q) (c : Ctx)
         (s : PageState),
  let capture := fst (fst (startRecording K h cmp start nows c)) in
  let s' := handleGenerate capture s in
  pageProps s' = pageProps s
  /\ (isRecording s' = false <-> exists ty, capture = Resolved ty)
  /\ (videoUrl s' = Some (objectUrl (selectMimeType h))
      <-> exists ty, capture = Resolved ty)
  /\ ((exists ty, capture = Resolved ty) \/ videoUrl s' = None)
  /\ (hostSupports h (selectMimeType h) = true
      \/ (isRecording s' = true /\ videoUrl s' = None
          /\ generateDisabled s' = true)).
Proof.
  intros h cmp start nows c s capture s'.
  pose proof (startRecording_outcome K h cmp start nows c) as Hout.
  fold capture in Hout. subst s'. unfold handleGenerate, generateDisabled.
  destruct capture as [ty|e|e|]; cbn.
  - destruct Hout as [-> Hs]. repeat split; eauto.
  - destruct Hout as (Hs & _). repeat split;
      try (intros [ty H]; discriminate); try discriminate; auto.
    right. rewrite orb_true_r. auto.
  - repeat split; try (intros [ty H]; discriminate); try discriminate; auto.
  - repeat split; try (intros [ty H]; discriminate); try discriminate; auto.
Qed.

End Generate.

(** X18.  For each of the three ratios the pixel size of the canvas has
    exactly the aspect ratio of the box that shows it, and is not empty. *)
Theorem layoutSize_matches_cssAspectRatio : forall r : Ratio,
  fst (layoutSize r) * snd (cssAspectRatio r)
  = snd (layoutSize r) * fst (cssAspectRatio r)
  /\ 0 < fst (layoutSize r) /\ 0 < snd (layoutSize r).
Proof. intros []; repeat split. Qed.
